(** * Yes-Browser: the virtual filesystem and its shell

    A shallow embedding of [class VirtualFileSystem] and of the filesystem
    handlers of [OS.runTermCmd].  A JavaScript string is a [string] (a
    sequence of code units below 256), the object [this.fs] used as a map
    from path to entry is a [gmap string entry], an array of child names is a
    [list string].  The instance fields and [localStorage] are threaded
    explicitly through every method as a [State]. *)

From Stdlib Require Import Ascii String ZArith.
From stdpp Require Import base option list strings gmap fin_maps.

Local Open Scope Z_scope.
Set Warnings "-register-all,-clear-no-such-hyp".

(** ** The string methods the source calls *)

Module JS.

(** [a || b] on strings: the empty string is the only falsy string. *)
Definition or_else (a b : string) : string :=
  match a with "" => b | _ => a end.

(** [s.startsWith(p)] *)
Fixpoint startsWith (s p : string) : bool :=
  match p, s with
  | "", _ => true
  | String b p', String a s' => if decide (a = b) then startsWith s' p' else false
  | String _ _, "" => false
  end.

(** [s.endsWith(p)] *)
Fixpoint endsWith (s p : string) : bool :=
  if decide (s = p) then true
  else match s with
       | "" => false
       | String _ s' => endsWith s' p
       end.

(** [s.includes(p)] *)
Fixpoint includes (s p : string) : bool :=
  if startsWith s p then true
  else match s with
       | "" => false
       | String _ s' => includes s' p
       end.

(** Position of the last occurrence of the character [c], if any. *)
Fixpoint last_index (c : ascii) (s : string) : option nat :=
  match s with
  | "" => None
  | String a s' =>
      match last_index c s' with
      | Some i => Some (S i)
      | None => if decide (a = c) then Some 0%nat else None
      end
  end.

(** [s.lastIndexOf(c)] for a one-character search string: [-1] when absent. *)
Definition lastIndexOf (s : string) (c : ascii) : Z :=
  match last_index c s with
  | Some i => Z.of_nat i
  | None => -1
  end.

Definition clamp (len i : Z) : nat := Z.to_nat (Z.max 0 (Z.min i len)).

(** [s.substring(a, b)]: both indices are clamped to [0, length] and
    swapped when [a > b]. *)
Definition substring (s : string) (a b : Z) : string :=
  let len := Z.of_nat (String.length s) in
  let a' := clamp len a in
  let b' := clamp len b in
  String.substring (Nat.min a' b') (Nat.max a' b' - Nat.min a' b') s.

(** [s.substring(a)] *)
Definition substring_from (s : string) (a : Z) : string :=
  substring s a (Z.of_nat (String.length s)).

(** [s.slice(1)] *)
Definition slice1 (s : string) : string :=
  match s with
  | "" => ""
  | String _ s' => s'
  end.

(** [s.split(c)] for a one-character separator; [''.split(c)] is [['']]. *)
Fixpoint split (c : ascii) (s : string) : list string :=
  match s with
  | "" => [""]
  | String a s' =>
      if decide (a = c) then "" :: split c s'
      else match split c s' with
           | piece :: rest => String a piece :: rest
           | [] => [String a ""]
           end
  end.

(** [parts.join(sep)] *)
Definition join (sep : string) (parts : list string) : string :=
  String.concat sep parts.

(** [arr.filter(p => p)] on an array of strings *)
Definition filter_truthy (l : list string) : list string :=
  filter (λ p, p ≠ "") l.

(** [arr.pop()], the array that remains *)
Definition pop (l : list string) : list string := removelast l.

(** White space as [trim] and [\s] see it, among code units below 256. *)
Definition is_space (a : ascii) : bool :=
  match a with
  | "009" | "010" | "011" | "012" | "013" | " " | "160" => true
  | _ => false
  end%char.

Fixpoint trimStart (s : string) : string :=
  match s with
  | "" => ""
  | String a s' => if is_space a then trimStart s' else s
  end.

Fixpoint trimEnd (s : string) : string :=
  match s with
  | "" => ""
  | String a s' =>
      match trimEnd s' with
      | "" => if is_space a then "" else String a ""
      | t => String a t
      end
  end.

(** [s.trim()] *)
Definition trim (s : string) : string := trimEnd (trimStart s).

Fixpoint split_ws_go (in_run : bool) (s : string) : list string :=
  match s with
  | "" => [""]
  | String a s' =>
      if is_space a then
        if in_run then split_ws_go true s' else "" :: split_ws_go true s'
      else match split_ws_go false s' with
           | piece :: rest => String a piece :: rest
           | [] => [String a ""]
           end
  end.

(** [s.split(/\s+/)] *)
Definition split_ws (s : string) : list string := split_ws_go false s.

Definition lower (a : ascii) : ascii :=
  let n := nat_of_ascii a in
  if decide (65 ≤ n ≤ 90 ∨ (192 ≤ n ≤ 222 ∧ n ≠ 215))%nat
  then ascii_of_nat (n + 32) else a.

(** [s.toLowerCase()]: the letters A to Z and the capital letters of Latin-1 *)
Fixpoint toLowerCase (s : string) : string :=
  match s with
  | "" => ""
  | String a s' => String (lower a) (toLowerCase s')
  end.

Definition is_quote (a : ascii) : bool :=
  match a with
  | "034" | "'" => true
  | _ => false
  end%char.

Fixpoint drop_last_quote (s : string) : string :=
  match s with
  | "" => ""
  | String a "" => if is_quote a then "" else s
  | String a s' => String a (drop_last_quote s')
  end.

(** [s.replace(/^["']|["']$/g, '')]: one quote at the start and one at the
    end are removed; the scan for the second resumes after the first. *)
Definition strip_quotes (s : string) : string :=
  match s with
  | "" => ""
  | String a s' =>
      if is_quote a then drop_last_quote s' else String a (drop_last_quote s')
  end.

(** [s.replace(c, '')] for a one-character pattern: the first occurrence goes. *)
Fixpoint remove_first_char (c : ascii) (s : string) : string :=
  match s with
  | "" => ""
  | String a s' => if decide (a = c) then s' else String a (remove_first_char c s')
  end.

(** [arr.indexOf(x)] followed by [if (idx > -1) arr.splice(idx, 1)] *)
Fixpoint splice_out (x : string) (l : list string) : list string :=
  match l with
  | [] => []
  | y :: l' => if decide (y = x) then l' else y :: splice_out x l'
  end.

(** [arr.includes(x)] *)
Definition arr_includes (l : list string) (x : string) : bool :=
  bool_decide (x ∈ l).

(** [arr.find(a => !a.startsWith('-'))] *)
Definition find_operand (l : list string) : option string :=
  List.find (λ a, negb (startsWith a "-")) l.

End JS.

(** ** The platform: JSON and [localStorage]

    [JSON.stringify], [JSON.parse] and the storage quota belong to the
    browser, not to the repository; they are parameters of the development.
    [JSON_parse] answers [None] where [JSON.parse] throws a [SyntaxError];
    [setItem_fits] is [false] where [localStorage.setItem] throws. *)

(** The values of JSON.  A number is a non-negative integer, which is all
    the tree holds (the [Date.now()] of a file). *)
Inductive json :=
  | JNull
  | JBool (b : bool)
  | JNum (n : N)
  | JStr (s : string)
  | JArr (items : list json)
  | JObj (fields : list (string * json)).

Class Platform := {
  JSON_stringify : json → string;
  JSON_parse : string → option json;
  setItem_fits : string → bool
}.

(** What [if (v)] and [v || w] test. *)
Definition truthy (v : json) : bool :=
  match v with
  | JNull | JBool false | JNum 0%N | JStr "" => false
  | _ => true
  end.

(** ** Data model *)

(** [{ type: 'dir', children }] or [{ type: 'file', content, created }] *)
Inductive entry :=
  | Dir (children : list string)
  | File (content : string) (created : N).

Global Instance entry_eq_dec : EqDecision entry.
Proof. solve_decision. Defined.

(** The fields [this.fs] and [this.currentDir], the item ['vfs'] of
    [localStorage] ([None] when [getItem] returns [null]) and the value
    [Date.now()] reads while a method runs. *)
Record State := mkState {
  fs : gmap string entry;
  currentDir : string;
  storage : option string;
  clock : N
}.

Definition with_fs (f : gmap string entry → gmap string entry) (s : State) : State :=
  mkState (f (fs s)) (currentDir s) (storage s) (clock s).

Definition with_currentDir (d : string) (s : State) : State :=
  mkState (fs s) d (storage s) (clock s).

(** The object literal of the constructor. *)
Definition default_fs : gmap string entry :=
  <["/" := Dir ["home"; "etc"; "var"; "tmp"]]>
  (<["/home" := Dir ["user"]]>
  (<["/home/user" := Dir ["Desktop"; "Documents"; "Downloads"]]>
  (<["/home/user/Desktop" := Dir []]>
  (<["/home/user/Documents" := Dir []]>
  (<["/home/user/Downloads" := Dir []]>
  (<["/etc" := Dir []]>
  (<["/var" := Dir []]>
  (<["/tmp" := Dir []]> ∅)))))))).

(** The tree as the JSON value [JSON.stringify] is handed, and back. *)
Definition entry_to_json (e : entry) : json :=
  match e with
  | Dir children =>
      JObj [("type", JStr "dir"); ("children", JArr (JStr <$> children))]
  | File content created =>
      JObj [("type", JStr "file"); ("content", JStr content); ("created", JNum created)]
  end.

Definition tree_to_json (t : gmap string entry) : json :=
  JObj (prod_map id entry_to_json <$> map_to_list t).

Definition json_to_name (v : json) : option string :=
  match v with JStr s => Some s | _ => None end.

Definition json_to_entry (v : json) : option entry :=
  match v with
  | JObj [("type", JStr "dir"); ("children", JArr items)] =>
      Dir <$> mapM json_to_name items
  | JObj [("type", JStr "file"); ("content", JStr content); ("created", JNum created)] =>
      Some (File content created)
  | _ => None
  end.

Definition json_to_tree (v : json) : option (gmap string entry) :=
  match v with
  | JObj fields =>
      list_to_map <$> mapM (λ kv, (kv.1,.) <$> json_to_entry kv.2) fields
  | _ => None
  end.

(** ** Results *)

(** The object a method returns: [{ error }], [{ success: true }],
    [{ success: true, path }], [{ content }] or [{ items }]. *)
Inductive result :=
  | Error (msg : string)
  | Success
  | SuccessAt (path : string)
  | Content (content : string)
  | Items (items : list string).

(** How a call ends: it returns, or a [TypeError] escapes it (reading
    [.children] of [undefined], calling [.indexOf] of [undefined]).
    [Unfinished] is the answer of the recursion of [rm] when its fuel runs
    out; [rm] itself never gives it (see [rm_finishes]). *)
Inductive completion :=
  | Returned (r : result)
  | TypeError
  | Unfinished.

Definition is_error (r : result) : bool :=
  match r with Error _ => true | _ => false end.

(** ** class VirtualFileSystem *)

Section VirtualFileSystem.
Context `{Platform}.

(** [loadFS()]: the parsed snapshot, [JNull] for [null]. *)
Definition loadFS (item : option string) : json :=
  match item with
  | None => JNull
  | Some "" => JNull
  | Some data =>
      match JSON_parse data with
      | Some v => v
      | None => JNull
      end
  end.

(** [saveFS()] *)
Definition saveFS (s : State) : State :=
  let text := JSON_stringify (tree_to_json (fs s)) in
  mkState (fs s) (currentDir s)
          (if setItem_fits text then Some text else storage s) (clock s).

(** [this.loadFS() || { ... }], the value the constructor assigns to [this.fs]. *)
Definition initial_fs (item : option string) : json :=
  let loaded := loadFS item in
  if truthy loaded then loaded else tree_to_json default_fs.

(** [new VirtualFileSystem()].  The constructor does not validate the
    snapshot; the answer is [None] when the stored value is not shaped
    like a tree, a state the data model has no value for. *)
Definition constructor (item : option string) (now : N) : option State :=
  t ← json_to_tree (initial_fs item);
  Some (saveFS (mkState t "/home/user" item now)).

Definition resolvePath (s : State) (path : string) : string :=
  if JS.startsWith path "/" then path
  else if decide (path = "~") then "/home/user"
  else if JS.startsWith path "~/" then "/home/user" +:+ JS.slice1 path
  else if decide (path = ".") then currentDir s
  else if decide (path = "..") then
    let parts := JS.filter_truthy (JS.split "/" (currentDir s)) in
    let parts := JS.pop parts in
    JS.or_else ("/" +:+ JS.join "/" parts) "/"
  else currentDir s +:+ (if JS.endsWith (currentDir s) "/" then "" else "/") +:+ path.

(** [this.fs[path] !== undefined].  The lookup is of the entries the tree
    holds: the paths the methods look up come out of [resolvePath] and start
    with ['/'], where [Object.prototype] has no property. *)
Definition exists_ (s : State) (path : string) : bool :=
  bool_decide (is_Some (fs s !! path)).

Definition isDir (s : State) (path : string) : bool :=
  exists_ s path &&
  match fs s !! path with Some (Dir _) => true | _ => false end.

Definition isFile (s : State) (path : string) : bool :=
  exists_ s path &&
  match fs s !! path with Some (File _ _) => true | _ => false end.

(** [path.substring(0, path.lastIndexOf('/')) || '/'] *)
Definition parent_of (path : string) : string :=
  JS.or_else (JS.substring path 0 (JS.lastIndexOf path "/")) "/".

(** [path.substring(path.lastIndexOf('/') + 1)] *)
Definition name_of (path : string) : string :=
  JS.substring_from path (JS.lastIndexOf path "/" + 1).

(** [this.fs[parent].children.push(name)]; the callers have checked
    [isDir(parent)]. *)
Definition push_child (parent name : string) (t : gmap string entry) : gmap string entry :=
  match t !! parent with
  | Some (Dir children) => <[parent := Dir (children ++ [name])]> t
  | _ => t
  end.

Definition mkdir (path : string) (s : State) : State * result :=
  let path := resolvePath s path in
  if exists_ s path then (s, Error "mkdir: cannot create directory: File exists")
  else
    let parent := parent_of path in
    if negb (isDir s parent)
    then (s, Error "mkdir: cannot create directory: No such file or directory")
    else
      let name := name_of path in
      let s := with_fs (<[path := Dir []]>) s in
      let s := with_fs (push_child parent name) s in
      (saveFS s, Success).

Definition touch (path : string) (s : State) : State * result :=
  let path := resolvePath s path in
  if exists_ s path then (s, Success)
  else
    let parent := parent_of path in
    if negb (isDir s parent)
    then (s, Error "touch: cannot touch: No such file or directory")
    else
      let name := name_of path in
      let s := with_fs (<[path := File "" (clock s)]>) s in
      let s := with_fs (push_child parent name) s in
      (saveFS s, Success).

(** [this.fs[path].content = content] and [+= content] *)
Definition set_content (path content : string) (append : bool)
    (t : gmap string entry) : gmap string entry :=
  match t !! path with
  | Some (File old created) =>
      <[path := File (if append then old +:+ content else content) created]> t
  | _ => t
  end.

Definition writeFile (path content : string) (append : bool) (s : State) : State * result :=
  let path := resolvePath s path in
  let '(s, r) := if negb (exists_ s path) then touch path s else (s, Success) in
  if is_error r then (s, r)
  else if negb (isFile s path) then (s, Error "cannot write: Is a directory")
  else
    let s := with_fs (set_content path content append) s in
    (saveFS s, Success).

Definition readFile (path : string) (s : State) : result :=
  let path := resolvePath s path in
  if negb (exists_ s path) then Error "cat: No such file or directory"
  else match fs s !! path with
       | Some (File content _) => Content (JS.or_else content "")
       | _ => Error "cat: Is a directory"
       end.

Definition ls (path : string) (showHidden : bool) (s : State) : result :=
  let path := resolvePath s path in
  if negb (exists_ s path) then Error "ls: cannot access: No such file or directory"
  else match fs s !! path with
       | Some (Dir children) =>
           let items := children in
           let items := if negb showHidden
                        then filter (λ i, negb (JS.startsWith i ".")) items
                        else items in
           Items items
       | _ => Items [name_of path]
       end.

(** The loop [for (const child of children) this.rm(path + '/' + child, true)]:
    what each call returns is dropped, what it throws ends the loop. *)
Fixpoint rm_children (rm_rec : string → bool → State → State * completion)
    (path : string) (children : list string) (s : State) : State * option completion :=
  match children with
  | [] => (s, None)
  | child :: rest =>
      match rm_rec (path +:+ "/" +:+ child) true s with
      | (s, Returned _) => rm_children rm_rec path rest s
      | (s, abrupt) => (s, Some abrupt)
      end
  end.

(** The body of [rm(path, recursive = false)], with [rm_rec] for the
    calls of [this.rm] inside it. *)
Definition rm_body (rm_rec : string → bool → State → State * completion)
    (path : string) (recursive : bool) (s : State) : State * completion :=
  let path := resolvePath s path in
  if negb (exists_ s path)
  then (s, Returned (Error "rm: cannot remove: No such file or directory"))
  else if isDir s path && negb recursive
  then (s, Returned (Error "rm: cannot remove: Is a directory (use -r)"))
  else
    let parent := parent_of path in
    let name := name_of path in
    let '(s, abrupt) :=
      if isDir s path && recursive then
        let children := match fs s !! path with
                        | Some (Dir children) => children
                        | _ => []
                        end in
        rm_children rm_rec path children s
      else (s, None) in
    match abrupt with
    | Some c => (s, c)
    | None =>
        let s := with_fs (delete path) s in
        match fs s !! parent with
        | Some (Dir children) =>
            let s := with_fs (<[parent := Dir (JS.splice_out name children)]>) s in
            (saveFS s, Returned Success)
        | _ => (s, TypeError)
        end
    end.

Fixpoint rm_fuel (fuel : nat) : string → bool → State → State * completion :=
  match fuel with
  | O => λ _ _ s, (s, Unfinished)
  | S fuel => rm_body (rm_fuel fuel)
  end.

(** Every nested call of [rm] is on a longer path than its caller's and
    goes on only where that path is a key; this many levels suffice. *)
Definition rm_depth (s : State) : nat :=
  S (S (max_list (String.length <$> (map_to_list (fs s)).*1))).

Definition rm (path : string) (recursive : bool) (s : State) : State * completion :=
  rm_fuel (rm_depth s) path recursive s.

Definition cd (path : string) (s : State) : State * result :=
  let path := resolvePath s path in
  if negb (exists_ s path) then (s, Error "cd: no such file or directory")
  else if negb (isDir s path) then (s, Error "cd: not a directory")
  else (with_currentDir path s, SuccessAt path).

Definition pwd (s : State) : string := currentDir s.

Definition cp (src dest : string) (s : State) : State * result :=
  let src := resolvePath s src in
  let dest := resolvePath s dest in
  if negb (exists_ s src) then (s, Error "cp: cannot stat: No such file or directory")
  else if isDir s src then (s, Error "cp: omitting directory (use -r for recursive)")
  else
    match readFile src s with
    | Content content => writeFile dest content false s
    | r => (s, r)
    end.

Definition mv (src dest : string) (s : State) : State * completion :=
  let '(s, cpResult) := cp src dest s in
  if is_error cpResult then (s, Returned cpResult)
  else rm src false s.

End VirtualFileSystem.

(** ** OS.runTermCmd *)

(** What a command leaves in the response line [el]. *)
Inductive display :=
  | InnerText (text : string)   (* [el.innerText = text] *)
  | Cleared                     (* [clear]: the whole output pane is emptied *)
  | Untouched                   (* the handler returns without writing *)
  | Aborted (c : completion)    (* an exception escapes the handler *)
  | Collaborator.               (* [date]: the text of [new Date()] *)

Definition nl : string := String "010" "".

Definition error_or_empty (r : result) : string :=
  match r with Error msg => msg | _ => "" end.

(** [args[0]] where the handlers test it with [!args[0]] or [args[0] || d]. *)
Definition arg0 (args : list string) : option string :=
  match args with
  | a :: _ => if decide (a = "") then None else Some a
  | [] => None
  end.

Definition digit (n : nat) : string :=
  String (ascii_of_nat (48 + n)) "".

Fixpoint decimal_go (fuel n : nat) (acc : string) : string :=
  match fuel with
  | O => acc
  | S fuel =>
      let acc := digit (n mod 10) +:+ acc in
      if decide (n < 10)%nat then acc else decimal_go fuel (n / 10) acc
  end.

(** A count inside a template literal. *)
Definition decimal (n : nat) : string := decimal_go (S n) n "".

Section Terminal.
Context `{Platform}.

(** [openFileEditor(filename)] as far as it reaches the store: a file that
    cannot be read is touched; the editor window is not modelled. *)
Definition openFileEditor (filename : string) (s : State) : State :=
  let filepath := resolvePath s filename in
  match readFile filepath s with
  | Error _ => (touch filepath s).1
  | _ => s
  end.

Definition ls_long_line (path : string) (s : State) (i : string) : string :=
  let fullPath := resolvePath s (path +:+ "/" +:+ i) in
  (if isDir s fullPath then "d" else "-") +:+ "rw-r--r-- 1 user user 0 Jan 1 00:00 " +:+ i.

Definition echo (cmd : string) (args : list string) (s : State) : State * display :=
  let fullCmd := JS.trim cmd in
  if JS.includes fullCmd ">" then
    let pieces := JS.trim <$> JS.split ">" fullCmd in
    match pieces with
    | echopart :: filepart :: _ =>
        let text := JS.strip_quotes (JS.substring_from echopart 5) in
        let append := JS.includes fullCmd ">>" in
        let filename := JS.trim (JS.remove_first_char ">" filepart) in
        let '(s, r) := writeFile filename (text +:+ nl) append s in
        (s, InnerText (error_or_empty r))
    | _ => (s, Aborted TypeError)
    end
  else (s, InnerText (JS.join " " args)).

Definition runTermCmd (cmd : string) (s : State) : State * display :=
  let parts := JS.split_ws (JS.trim cmd) in
  let command := JS.toLowerCase (default "" (head parts)) in
  let args := tail parts in
  if decide (command = "help") then
    (s, InnerText "Available commands:
File Operations: ls, cd, pwd, mkdir, touch, rm, cp, mv, cat, nano, vim
Text Processing: echo, grep, head, tail, wc
System Info: whoami, uname, date, uptime, ps, top, df, free
Network: ping, curl, wget
Utilities: clear, history, export")
  else if decide (command = "clear" ∨ command = "cls") then (s, Cleared)
  else if decide (command = "ls" ∨ command = "dir") then
    let showAll := JS.arr_includes args "-a" || JS.arr_includes args "-la"
                   || JS.arr_includes args "-al" in
    let longFormat := JS.arr_includes args "-l" || JS.arr_includes args "-la"
                      || JS.arr_includes args "-al" in
    let path := JS.or_else (default "" (JS.find_operand args)) "." in
    match ls path showAll s with
    | Items items =>
        if longFormat
        then (s, InnerText (JS.or_else (JS.join nl (ls_long_line path s <$> items)) "total 0"))
        else (s, InnerText (JS.or_else (JS.join "  " items) ""))
    | r => (s, InnerText (error_or_empty r))
    end
  else if decide (command = "cd") then
    let path := default "~" (arg0 args) in
    let '(s, r) := cd path s in
    (s, InnerText (error_or_empty r))
  else if decide (command = "pwd") then (s, InnerText (pwd s))
  else if decide (command = "mkdir") then
    match arg0 args with
    | None => (s, InnerText "mkdir: missing operand")
    | Some a =>
        let '(s, r) := mkdir a s in
        (s, InnerText (error_or_empty r))
    end
  else if decide (command = "touch") then
    match arg0 args with
    | None => (s, InnerText "touch: missing file operand")
    | Some a =>
        let '(s, r) := touch a s in
        (s, InnerText (error_or_empty r))
    end
  else if decide (command = "rm") then
    match arg0 args with
    | None => (s, InnerText "rm: missing operand")
    | Some _ =>
        let recursive := JS.arr_includes args "-r" || JS.arr_includes args "-rf" in
        match JS.find_operand args with
        | None => (s, Aborted TypeError)   (* [resolvePath(undefined)] *)
        | Some file =>
            match rm file recursive s with
            | (s, Returned r) => (s, InnerText (error_or_empty r))
            | (s, c) => (s, Aborted c)
            end
        end
    end
  else if decide (command = "cp") then
    match args with
    | a :: b :: _ =>
        let '(s, r) := cp a b s in
        (s, InnerText (error_or_empty r))
    | _ => (s, InnerText "cp: missing file operand")
    end
  else if decide (command = "mv") then
    match args with
    | a :: b :: _ =>
        match mv a b s with
        | (s, Returned r) => (s, InnerText (error_or_empty r))
        | (s, c) => (s, Aborted c)
        end
    | _ => (s, InnerText "mv: missing file operand")
    end
  else if decide (command = "cat") then
    match arg0 args with
    | None => (s, InnerText "cat: missing file operand")
    | Some a =>
        match readFile a s with
        | Error msg => (s, InnerText msg)
        | Content content => (s, InnerText (JS.or_else content ""))
        | _ => (s, InnerText "")
        end
    end
  else if decide (command = "nano" ∨ command = "vim" ∨ command = "vi") then
    match arg0 args with
    | None => (s, InnerText (command +:+ ": missing file operand"))
    | Some a => (openFileEditor a s, InnerText "")
    end
  else if decide (command = "echo") then echo cmd args s
  else if decide (command = "grep") then
    match args with
    | pattern :: file :: _ =>
        match readFile file s with
        | Error msg => (s, InnerText msg)
        | Content content =>
            let lines := filter (λ l, JS.includes l pattern = true) (JS.split "010" content) in
            (s, InnerText (JS.or_else (JS.join nl lines) "grep: no matches found"))
        | _ => (s, InnerText "")
        end
    | _ => (s, InnerText "grep: missing pattern or file")
    end
  else if decide (command = "wc") then
    match arg0 args with
    | None => (s, InnerText "wc: missing file operand")
    | Some a =>
        match readFile a s with
        | Error msg => (s, InnerText msg)
        | Content content =>
            let lines := length (JS.split "010" content) in
            let words := length (JS.filter_truthy (JS.split_ws content)) in
            let chars := String.length content in
            (s, InnerText ("  " +:+ decimal lines +:+ "  " +:+ decimal words +:+ "  "
                           +:+ decimal chars +:+ " " +:+ a))
        | _ => (s, InnerText "")
        end
    end
  else if decide (command = "head" ∨ command = "tail") then
    match arg0 args with
    | None => (s, InnerText (command +:+ ": missing file operand"))
    | Some a =>
        match readFile a s with
        | Error msg => (s, InnerText msg)
        | Content content =>
            let lines := JS.split "010" content in
            let output := if decide (command = "head") then take 10 lines
                          else drop (length lines - 10) lines in
            (s, InnerText (JS.join nl output))
        | _ => (s, InnerText "")
        end
    end
  else if decide (command = "whoami") then (s, InnerText "user")
  else if decide (command = "uname") then
    if JS.arr_includes args "-a" then (s, InnerText "YesOS 1.0.0 Linux x86_64 GNU/Linux")
    else (s, InnerText "YesOS")
  else if decide (command = "date") then (s, Collaborator)
  else if decide (command = "uptime") then
    (s, InnerText "up 42 days, 13:37, 1 user, load average: 0.00, 0.01, 0.05")
  else if decide (command = "ps") then
    (s, InnerText "  PID TTY          TIME CMD
    1 pts/0    00:00:00 bash
   42 pts/0    00:00:00 yesos
  420 pts/0    00:00:00 ps")
  else if decide (command = "top") then
    (s, InnerText "top - simulated
Tasks: 3 total, 1 running
%Cpu(s): 0.3 us, 0.1 sy
MiB Mem: 8192 total, 2048 free
  PID USER      PR  NI    VIRT    RES  %CPU  %MEM COMMAND
    1 user      20   0   12345   1234   0.1   0.1 yesos")
  else if decide (command = "df") then
    (s, InnerText "Filesystem     1K-blocks    Used Available Use% Mounted on
/dev/vfs        10485760 1048576   9437184  10% /")
  else if decide (command = "free") then
    (s, InnerText "              total        used        free
Mem:        8388608     2097152     6291456
Swap:             0           0           0")
  else if decide (command = "ping") then
    let host := default "localhost" (arg0 args) in
    (s, InnerText ("PING " +:+ host +:+ " (127.0.0.1): 56 data bytes
64 bytes from 127.0.0.1: icmp_seq=0 ttl=64 time=0.1 ms
64 bytes from 127.0.0.1: icmp_seq=1 ttl=64 time=0.1 ms"))
  else if decide (command = "curl" ∨ command = "wget") then
    match arg0 args with
    | None => (s, InnerText (command +:+ ": missing URL"))
    | Some _ =>
        (s, InnerText (command +:+ ": simulated download (use File Explorer for real downloads)"))
    end
  else if decide (command = "history") then
    (s, InnerText "history: command history not implemented yet")
  else if decide (command = "export") then
    (s, InnerText (match args with [] => "export: environment variables not implemented" | _ => "" end))
  else if decide (command = "") then (s, Untouched)
  else (s, InnerText ("bash: " +:+ command +:+ ": command not found")).

End Terminal.

(** ** The mutating operations as data *)

Inductive mutation :=
  | Mkdir (path : string)
  | Touch (path : string)
  | WriteFile (path content : string) (append : bool)
  | Rm (path : string) (recursive : bool)
  | Cp (src dest : string)
  | Mv (src dest : string).

Definition apply `{Platform} (m : mutation) (s : State) : State * completion :=
  match m with
  | Mkdir path => let '(s, r) := mkdir path s in (s, Returned r)
  | Touch path => let '(s, r) := touch path s in (s, Returned r)
  | WriteFile path content append =>
      let '(s, r) := writeFile path content append s in (s, Returned r)
  | Rm path recursive => rm path recursive s
  | Cp src dest => let '(s, r) := cp src dest s in (s, Returned r)
  | Mv src dest => mv src dest s
  end.

(** The canonical paths an operation resolves its arguments to. *)
Definition targets (m : mutation) (s : State) : list string :=
  match m with
  | Mkdir path | Touch path | WriteFile path _ _ | Rm path _ => [resolvePath s path]
  | Cp src dest | Mv src dest => [resolvePath s src; resolvePath s dest]
  end.

(** ** The invariants of the Tree (section 3 of the specification) *)

(** [dirname] and [basename] are what the methods compute: [parent_of] and
    [name_of]. *)

(** 1. ['/'] exists and is a Directory. *)
Definition root_is_dir (t : gmap string entry) : Prop :=
  ∃ children, t !! "/" = Some (Dir children).

(** 2. The parent of every other key is a Directory that lists its name. *)
Definition parents_link (t : gmap string entry) : Prop :=
  ∀ p, is_Some (t !! p) → p ≠ "/" →
    ∃ children, t !! parent_of p = Some (Dir children) ∧ name_of p ∈ children.

(** 3. No name twice among the children of one Directory. *)
Definition children_unique (t : gmap string entry) : Prop :=
  ∀ d children, t !! d = Some (Dir children) → NoDup children.

(** 4. No path is a Directory and a File at once. *)
Definition one_kind (s : State) : Prop :=
  ∀ p, isDir s p && isFile s p = false.

Definition spec_invariants (s : State) : Prop :=
  root_is_dir (fs s) ∧ parents_link (fs s) ∧ children_unique (fs s) ∧ one_kind s.

(** A path that starts with one ['/'], not with two. *)
Definition single_rooted (p : string) : Prop :=
  JS.startsWith p "/" = true ∧ JS.startsWith p "//" = false.

(** Every key but the root is single-rooted. *)
Definition keys_rooted (t : gmap string entry) : Prop :=
  ∀ p, is_Some (t !! p) → p ≠ "/" → single_rooted p.

(** Every child name of a Directory is the name of an entry whose parent
    that Directory is. *)
Definition children_exist (t : gmap string entry) : Prop :=
  ∀ d children c, t !! d = Some (Dir children) → c ∈ children →
    ∃ p, is_Some (t !! p) ∧ p ≠ "/" ∧ parent_of p = d ∧ name_of p = c.

Record TreeInv (t : gmap string entry) : Prop := {
  inv_root : root_is_dir t;
  inv_parent : parents_link t;
  inv_unique : children_unique t;
  inv_rooted : keys_rooted t;
  inv_child : children_exist t
}.

(** The key of the child [c] of the directory [d]. *)
Definition child_path (d c : string) : string :=
  if decide (d = "/") then "/" +:+ c else d +:+ "/" +:+ c.

(** ** What rule 5 of the resolver says in the specification's words *)

(** In the words of the specification: split [currentDirectory] into
    segments, drop the last segment, rejoin with [/]; if no segments remain,
    return [/]. *)
Definition segments (dir : string) : list string :=
  filter (λ p, p ≠ "") (JS.split "/" dir).

Definition up_one_level (dir : string) : string :=
  match removelast (segments dir) with
  | [] => "/"
  | kept => "/" +:+ String.concat "/" kept
  end.

(** ** A platform that meets the JSON contract *)

Global Instance entry_countable : Countable entry :=
  inj_countable'
    (λ e, match e with Dir cs => inl cs | File c t => inr (c, t) end)
    (λ x, match x with inl cs => Dir cs | inr (c, t) => File c t end)
    (λ e, match e with Dir _ => eq_refl | File _ _ => eq_refl end).

Fixpoint pos_digits (p : positive) : string :=
  match p with
  | xH => "1"
  | xO p => String "0" (pos_digits p)
  | xI p => String "1" (pos_digits p)
  end.

Fixpoint digits_pos (text : string) : option positive :=
  match text with
  | "" => None
  | String a "" => if decide (a = "1"%char) then Some xH else None
  | String a rest =>
      if decide (a = "0"%char) then xO <$> digits_pos rest
      else if decide (a = "1"%char) then xI <$> digits_pos rest
      else None
  end.

(** It writes a tree as the binary code of its index among all trees, reads
    that back, and never runs out of storage. *)
Definition reference_platform : Platform := {|
  JSON_stringify v :=
    match json_to_tree v with
    | Some t => pos_digits (encode t)
    | None => ""
    end;
  JSON_parse text := tree_to_json <$> (digits_pos text ≫= decode);
  setItem_fits _ := true
|}.

(** The state of a first visit: nothing stored, the default layout. *)
Definition first_visit `{Platform} (now : N) : State :=
  saveFS (mkState default_fs "/home/user" None now).

(** The state of a first visit on the reference platform. *)
Definition s0 : State := first_visit (H := reference_platform) 0.

(** ** Sessions *)

(** The states a page can be in between two calls: what the constructor
    builds, then any method that returns (a mutation, [cd]), with the clock
    moving in between. *)
Inductive reachable `{Platform} : State → Prop :=
  | reach_new item now s :
      constructor item now = Some s → reachable s
  | reach_mutation s m s' r :
      reachable s → apply m s = (s', Returned r) → reachable s'
  | reach_cd s path s' r :
      reachable s → cd path s = (s', r) → reachable s'
  | reach_tick s now :
      reachable s → reachable (mkState (fs s) (currentDir s) (storage s) now).

(** The stored item is the serialization of the tree in memory. *)
Definition in_sync `{Platform} (s : State) : Prop :=
  storage s = Some (JSON_stringify (tree_to_json (fs s))).

(** The contract of the platform: on trees [JSON.parse] reads back what
    [JSON.stringify] wrote, which is never the empty text, and
    [localStorage] takes every write. *)
Class PlatformContract `{Platform} : Prop := {
  parse_stringify :
    ∀ t, JSON_parse (JSON_stringify (tree_to_json t)) = Some (tree_to_json t);
  stringify_nonempty : ∀ t, JSON_stringify (tree_to_json t) ≠ "";
  storage_never_full : ∀ text, setItem_fits text = true
}.

(** The command lines of the echo scenario. *)
Definition dq : string := String "034" "".
Definition echo_hi : string := "echo " +:+ dq +:+ "hi" +:+ dq +:+ " > /tmp/x.txt".
Definition echo_bye : string := "echo " +:+ dq +:+ "bye" +:+ dq +:+ " >> /tmp/x.txt".

(** The nine entries of the default layout. *)
Definition default_entries_list : list (string * entry) :=
  [("/", Dir ["home"; "etc"; "var"; "tmp"]);
   ("/home", Dir ["user"]);
   ("/home/user", Dir ["Desktop"; "Documents"; "Downloads"]);
   ("/home/user/Desktop", Dir []);
   ("/home/user/Documents", Dir []);
   ("/home/user/Downloads", Dir []);
   ("/etc", Dir []); ("/var", Dir []); ("/tmp", Dir [])].

(** The six paths one sentence of the specification gives for it. *)
Definition six_paths : list string :=
  ["/"; "/home"; "/home/user"; "/home/user/Desktop"; "/home/user/Documents";
   "/home/user/Downloads"].

(** ** What a run of [rm] may be relied on for *)

(** The directories a run leaves in place, each with no more children than before. *)
Definition dirs_kept (bound : nat) (t t' : gmap string entry) : Prop :=
  ∀ k cs, (String.length k ≤ bound)%nat → t !! k = Some (Dir cs) →
    ∃ cs', t' !! k = Some (Dir cs') ∧ cs' ⊆ cs.

(** No key appears. *)
Definition keys_shrink (t t' : gmap string entry) : Prop :=
  ∀ k, is_Some (t' !! k) → is_Some (t !! k).

(** The contract of [rm] on a tree that meets the invariants: a
    [TypeError] only at the root; otherwise the invariants again, no new
    key, the shorter directories kept, and after a recursive run the
    target gone. *)
Definition rm_ok (f : string → bool → State → State * completion) : Prop :=
  ∀ q r s s' c, f q r s = (s', c) → TreeInv (fs s) →
    currentDir s' = currentDir s ∧
    match c with
    | Unfinished => True
    | TypeError => resolvePath s q = "/"
    | Returned _ =>
        TreeInv (fs s') ∧ keys_shrink (fs s) (fs s') ∧
        dirs_kept (String.length (resolvePath s q) - 1) (fs s) (fs s') ∧
        (r = true → fs s' !! resolvePath s q = None)
    end.

(** A run that adds no key, whatever the tree and however it ends. *)
Definition rm_shrinks (f : string → bool → State → State * completion) : Prop :=
  ∀ q r s, keys_shrink (fs s) (fs (f q r s).1).

(** A run that finishes wherever every key is shorter than [slack] plus the
    length of the path it is called on. *)
Definition rm_finishes_within (slack : nat)
    (f : string → bool → State → State * completion) : Prop :=
  ∀ q r s,
    (∀ k, is_Some (fs s !! k) →
          (String.length k < slack + String.length (resolvePath s q))%nat) →
    (f q r s).2 ≠ Unfinished.

(** ** The terminal prompt *)

(** [s.slice(n)] for [n] within the string *)
Fixpoint string_drop (n : nat) (s : string) : string :=
  match n, s with
  | O, _ => s
  | S n, String _ s' => string_drop n s'
  | S _, "" => ""
  end.

(** [s.replace(pattern, replacement)] with a string for pattern and no [$]
    in the replacement: the first occurrence is replaced. *)
Fixpoint replace_first (pattern replacement s : string) : string :=
  if JS.startsWith s pattern
  then replacement +:+ string_drop (String.length pattern) s
  else match s with
       | "" => ""
       | String a s' => String a (replace_first pattern replacement s')
       end.

(** [this.vfs.pwd().replace('/home/user', '~')], the directory [termEnter]
    shows in the prompt. *)
Definition promptDir (s : State) : string :=
  replace_first "/home/user" "~" (pwd s).

(** ** The file explorer and the editor, as far as they reach the store *)

(** What [renderFileExplorer] puts in the window: an error, or the path, the
    ['..'] item when the path is not the root, and for every listed name the
    path its click leads to and whether it is drawn as a directory. *)
Inductive explorer_view :=
  | ExplorerError (msg : string)
  | ExplorerGrid (path : string) (up : bool) (items : list (string * string * bool)).

Definition renderFileExplorer (path : string) (s : State) : explorer_view :=
  let path := resolvePath s path in
  match ls path false s with
  | Items items =>
      ExplorerGrid path (negb (bool_decide (path = "/")))
        ((λ name,
            let filePath := if decide (path = "/") then "/" +:+ name
                            else path +:+ "/" +:+ name in
            (name, filePath, isDir s filePath)) <$> items)
  | Error msg => ExplorerError msg
  | _ => ExplorerError ""
  end.

(** [navigateExplorer]: the path is resolved against the directory the
    window shows, with [currentDir] set to it for the time of the call. *)
Definition navigateExplorer (currentPath path : string) (s : State)
    : State * explorer_view :=
  let oldDir := currentDir s in
  let s := with_currentDir currentPath s in
  let newPath := resolvePath s path in
  let s := with_currentDir oldDir s in
  (s, renderFileExplorer newPath s).

(** [url.substring(url.lastIndexOf('/') + 1) || 'downloaded_file'], the name
    [explorerDownload] saves under. *)
Definition download_name (url : string) : string :=
  JS.or_else (JS.substring_from url (JS.lastIndexOf url "/" + 1)) "downloaded_file".

Section Explorer.
Context `{Platform}.

(** [explorerMkdir]: [name] is what [prompt] returned, [None] for [null]. *)
Definition explorerMkdir (path : string) (name : option string) (s : State) : State :=
  match name with
  | None | Some "" => s
  | Some name =>
      let oldDir := currentDir s in
      let s := with_currentDir path s in
      let '(s, _) := mkdir name s in
      with_currentDir oldDir s
  end.

(** The handler [explorerUpload] installs for the loaded file, and the one
    [explorerDownload] runs on the fetched text with [download_name url]
    for the name. *)
Definition explorerUpload (currentPath name content : string) (s : State) : State :=
  let oldDir := currentDir s in
  let s := with_currentDir currentPath s in
  let '(s, _) := writeFile name content false s in
  with_currentDir oldDir s.

(** [saveAndCloseEditor], without the window. *)
Definition saveAndCloseEditor (filepath content : string) (s : State) : State :=
  (writeFile filepath content false s).1.

End Explorer.

(** ** The browser's address bar *)

Section Browser.
Variable encodeURIComponent : string → string.

(** [browserGo]: the text put back into the address bar and the address
    given to the frame; [None] where the handler returns at once. *)
Definition browserGo (value : string) : option (string * string) :=
  let url := JS.trim value in
  if decide (url = "") then None
  else
    let url :=
      if negb (JS.startsWith url "http") then
        if JS.includes url "." && negb (JS.includes url " ")
        then "https://" +:+ url
        else "https://www.google.com/search?q=" +:+ encodeURIComponent url +:+ "&igu=1"
      else url in
    let proxyUrl := "https://api.allorigins.win/raw?url=" +:+ encodeURIComponent url in
    Some (url, proxyUrl).

End Browser.

(** ** The calculator *)

(** [s.slice(0, -1)] *)
Fixpoint drop_last_char (s : string) : string :=
  match s with
  | "" => ""
  | String _ "" => ""
  | String a s' => String a (drop_last_char s')
  end.

Section Calculator.
(** The text the display shows after [display.innerText = eval(current)];
    [None] where [eval] throws. *)
Variable eval_shown : string → option string.

(** [calcIn(val)] on the text of the display of the open calculator. *)
Definition calcIn (val display : string) : string :=
  let current := if decide (display = "0" ∨ display = "Error") then "" else display in
  if decide (val = "C") then "0"
  else if decide (val = "del") then JS.or_else (drop_last_char current) "0"
  else if decide (val = "=") then
    match eval_shown current with
    | Some shown => shown
    | None => "Error"
    end
  else display.

End Calculator.

(** ** Sessions that never name a path starting with two slashes *)




(** A segment of a path: not empty, no ['/']. *)
Definition clean_segment (seg : string) : Prop :=
  seg ≠ "" ∧ JS.last_index "/" seg = None.

(** ** What every write to the store keeps *)

(** A relation between the state before and after that holds across
    [with_fs] and [saveFS], the two ways the methods other than [cd] change
    the state. *)
Record step_closed `{Platform} (R : State → State → Prop) : Prop := {
  step_refl : ∀ s, R s s;
  step_trans : ∀ s1 s2 s3, R s1 s2 → R s2 s3 → R s1 s3;
  step_fs : ∀ f s, R s (with_fs f s);
  step_save : ∀ s, R s (saveFS s)
}.

(** A browser whose storage takes nothing. *)
Definition full_platform : Platform := {|
  JSON_stringify _ := "";
  JSON_parse _ := None;
  setItem_fits _ := false
|}.

(** The commands of the shell that write to the store or move the session. *)
Definition writing_commands : list string :=
  ["cd"; "mkdir"; "touch"; "rm"; "cp"; "mv"; "nano"; "vim"; "vi"; "echo"].

(** [parts[0].toLowerCase()] and [parts.slice(1)] of [runTermCmd]. *)
Definition command_of (cmd : string) : string :=
  JS.toLowerCase (default "" (head (JS.split_ws (JS.trim cmd)))).

Definition args_of (cmd : string) : list string :=
  tail (JS.split_ws (JS.trim cmd)).

(** A run of [rm] leaves alone every key that is not its target, not
    below its target and not the parent of its target. *)
Definition rm_frame (f : string → bool → State → State * completion) : Prop :=
  ∀ q r s k,
    JS.startsWith (currentDir s) "/" = true →
    k ≠ resolvePath s q →
    JS.startsWith k (resolvePath s q +:+ "/") = false →
    k ≠ parent_of (resolvePath s q) →
    fs (f q r s).1 !! k = fs s !! k.

(** * Properties *)

(** ** Strings and paths *)

Module Str.

Lemma app_cons a (s t : string) : String a s +:+ t = String a (s +:+ t).
Proof. reflexivity. Qed.

Lemma app_nil_l (s : string) : "" +:+ s = s.
Proof. reflexivity. Qed.

Lemma app_nil_r (s : string) : s +:+ "" = s.
Proof. induction s as [|a s IH]; [done|]. by rewrite app_cons, IH. Qed.

Lemma app_assoc (s t u : string) : (s +:+ t) +:+ u = s +:+ t +:+ u.
Proof. induction s as [|a s IH]; [done|]. by rewrite !app_cons, IH. Qed.

Lemma length_app (s t : string) :
  String.length (s +:+ t) = (String.length s + String.length t)%nat.
Proof. induction s as [|a s IH]; [done|]. rewrite app_cons. simpl. by rewrite IH. Qed.

Lemma substring_all (s : string) : String.substring 0 (String.length s) s = s.
Proof. induction s as [|a s IH]; [done|]. simpl. by rewrite IH. Qed.

Lemma substring_app_l (s t : string) :
  String.substring 0 (String.length s) (s +:+ t) = s.
Proof.
  induction s as [|a s IH].
  - destruct t; reflexivity.
  - rewrite app_cons. simpl. by rewrite IH.
Qed.

Lemma substring_app_r (s t : string) :
  String.substring (String.length s) (String.length t) (s +:+ t) = t.
Proof.
  induction s as [|a s IH].
  - apply substring_all.
  - rewrite app_cons. simpl. apply IH.
Qed.

Lemma startsWith_app (s t : string) : JS.startsWith (s +:+ t) s = true.
Proof.
  induction s as [|a s IH]; [by destruct t|].
  rewrite app_cons. simpl. by rewrite decide_True.
Qed.

Lemma startsWith_inv (s p : string) :
  JS.startsWith s p = true → ∃ t, s = p +:+ t.
Proof.
  revert s. induction p as [|b p IH]; intros s Hs.
  - by exists s.
  - destruct s as [|a s]; [done|]. simpl in Hs.
    case_decide; [|done]. subst.
    destruct (IH _ Hs) as [t ->]. by exists t.
Qed.

End Str.

Section Paths.

Lemma last_index_head c s : JS.last_index c (String c s) ≠ None.
Proof. simpl. destruct (JS.last_index c s); [done|]. by rewrite decide_True. Qed.

Lemma last_index_app c (a b : string) :
  JS.last_index c b = None →
  JS.last_index c (a +:+ String c "" +:+ b) = Some (String.length a).
Proof.
  intros Hb. change (String c "" +:+ b) with (String c b).
  induction a as [|x a IH].
  - simpl. rewrite Hb. by rewrite decide_True.
  - rewrite Str.app_cons. simpl. by rewrite IH.
Qed.

Lemma last_index_split c s i :
  JS.last_index c s = Some i →
  ∃ a b, s = a +:+ String c "" +:+ b ∧ JS.last_index c b = None.
Proof.
  revert i. induction s as [|x s IH]; intros i Hi; [done|].
  simpl in Hi. destruct (JS.last_index c s) as [j|] eqn:Hs.
  - destruct (IH j eq_refl) as (a & b & -> & Hb).
    exists (String x a), b. by rewrite Str.app_cons.
  - case_decide; [|done]. subst x. by exists "", s.
Qed.

Lemma substring_within (s : string) (a b : nat) :
  (a ≤ b ≤ String.length s)%nat →
  JS.substring s (Z.of_nat a) (Z.of_nat b) = String.substring a (b - a) s.
Proof.
  intros Hab. unfold JS.substring, JS.clamp.
  assert (Z.to_nat (0 `max` (Z.of_nat a `min` Z.of_nat (String.length s))) = a) as -> by lia.
  assert (Z.to_nat (0 `max` (Z.of_nat b `min` Z.of_nat (String.length s))) = b) as -> by lia.
  by rewrite Nat.min_l, Nat.max_r by lia.
Qed.

Lemma substring_to_negative (s : string) (b : Z) :
  b ≤ 0 → JS.substring s 0 b = "".
Proof.
  intros Hb. unfold JS.substring, JS.clamp.
  assert (Z.to_nat (0 `max` (0 `min` Z.of_nat (String.length s))) = 0%nat) as -> by lia.
  assert (Z.to_nat (0 `max` (b `min` Z.of_nat (String.length s))) = 0%nat) as -> by lia.
  by destruct s.
Qed.

(** Where the path has no ['/'], the parent is the root and the name is
    the whole path. *)
Lemma split_no_slash p :
  JS.last_index "/" p = None → parent_of p = "/" ∧ name_of p = p.
Proof.
  intros Hp. unfold parent_of, name_of, JS.substring_from, JS.lastIndexOf.
  rewrite Hp. split.
  - by rewrite substring_to_negative.
  - change (-1 + 1) with (Z.of_nat 0).
    rewrite substring_within by lia.
    rewrite Nat.sub_0_r. apply Str.substring_all.
Qed.

(** Where it has one, they are what stands before and after the last. *)
Lemma split_last_slash (a b : string) :
  JS.last_index "/" b = None →
  parent_of (a +:+ "/" +:+ b) = JS.or_else a "/" ∧ name_of (a +:+ "/" +:+ b) = b.
Proof.
  intros Hb.
  assert (String.length (a +:+ "/" +:+ b)
          = (String.length a + S (String.length b))%nat) as Hlen
    by (rewrite Str.length_app; done).
  unfold parent_of, name_of, JS.substring_from, JS.lastIndexOf.
  rewrite (last_index_app _ a b Hb). split.
  - change 0 with (Z.of_nat 0). rewrite substring_within by lia.
    by rewrite Nat.sub_0_r, Str.substring_app_l.
  - replace (Z.of_nat (String.length a) + 1) with (Z.of_nat (S (String.length a))) by lia.
    rewrite substring_within by lia. rewrite Hlen.
    replace (String.length a + S (String.length b) - S (String.length a))%nat
      with (String.length b) by lia.
    rewrite <- Str.app_assoc.
    replace (S (String.length a)) with (String.length (a +:+ "/"))
      by (rewrite Str.length_app; simpl; lia).
    apply Str.substring_app_r.
Qed.

Lemma path_cases p :
  (JS.last_index "/" p = None ∧ parent_of p = "/" ∧ name_of p = p) ∨
  (∃ a b, p = a +:+ "/" +:+ b ∧ parent_of p = JS.or_else a "/" ∧ name_of p = b).
Proof.
  destruct (JS.last_index "/" p) as [i|] eqn:Hp.
  - right. destruct (last_index_split _ _ _ Hp) as (a & b & -> & Hb).
    exists a, b. split; [done|]. by apply split_last_slash.
  - left. split; [done|]. by apply split_no_slash.
Qed.

Lemma single_rooted_absolute p : single_rooted p → JS.startsWith p "/" = true.
Proof. by intros [? _]. Qed.

(** A single-rooted path is the child path of its parent and name, and
    longer than its parent. *)
Lemma single_rooted_split p :
  single_rooted p → p ≠ "/" →
  p = child_path (parent_of p) (name_of p) ∧
  (String.length (parent_of p) < String.length p)%nat.
Proof.
  intros [Habs Hone] Hroot.
  destruct (path_cases p) as [(Hno & _ & _)|(a & b & -> & -> & ->)].
  - destruct p as [|x p]; [done|]. simpl in Habs. case_decide; [subst|done].
    by destruct (last_index_head "/" p).
  - destruct a as [|x a].
    + rewrite Str.app_nil_l. simpl JS.or_else. unfold child_path.
      rewrite decide_True by done. split; [done|].
      destruct b; [by destruct Hroot|]. rewrite Str.length_app. simpl. lia.
    + simpl JS.or_else. unfold child_path. case_decide as Ha.
      * injection Ha as -> ->.
        change (JS.startsWith ("//" +:+ b) "//" = false) in Hone.
        by rewrite Str.startsWith_app in Hone.
      * split; [done|]. rewrite Str.length_app, Str.length_app. simpl. lia.
Qed.

Lemma parent_of_ne p : single_rooted p → p ≠ "/" → parent_of p ≠ p.
Proof.
  intros Hp Hne Heq. destruct (single_rooted_split p Hp Hne) as [_ Hlen].
  rewrite Heq in Hlen. lia.
Qed.

(** Two single-rooted paths with the same parent and the same name are one. *)
Lemma same_parent_same_name p q :
  single_rooted p → p ≠ "/" → single_rooted q → q ≠ "/" →
  parent_of p = parent_of q → name_of p = name_of q → p = q.
Proof.
  intros Hp Hp' Hq Hq' Hpar Hname.
  destruct (single_rooted_split p Hp Hp') as [-> _].
  destruct (single_rooted_split q Hq Hq') as [-> _].
  by rewrite Hpar, Hname.
Qed.

Lemma resolvePath_absolute s p : JS.startsWith p "/" = true → resolvePath s p = p.
Proof. intros Hp. unfold resolvePath. by rewrite Hp. Qed.

End Paths.

(** ** Arrays of child names *)

Section Splice.

Lemma splice_out_subseteq x (l : list string) : JS.splice_out x l ⊆ l.
Proof.
  induction l as [|y l IH]; simpl; [done|].
  case_decide; set_solver.
Qed.

Lemma splice_out_keeps x y (l : list string) :
  y ∈ l → y ≠ x → y ∈ JS.splice_out x l.
Proof.
  intros Hy Hne. induction l as [|z l IH]; simpl; [done|].
  case_decide; set_solver.
Qed.

Lemma splice_out_NoDup x (l : list string) : NoDup l → NoDup (JS.splice_out x l).
Proof.
  induction 1 as [|y l Hy Hl IH]; simpl; [constructor|].
  case_decide; [done|]. constructor; [|done].
  intros Hin. by apply Hy, (splice_out_subseteq x).
Qed.

Lemma splice_out_gone x (l : list string) : NoDup l → x ∉ JS.splice_out x l.
Proof.
  induction 1 as [|y l Hy Hl IH]; simpl; [set_solver|].
  case_decide; [by subst|]. set_solver.
Qed.

End Splice.

(** ** The invariants under the three ways the methods change the tree *)

Section TreeSteps.
Implicit Types t : gmap string entry.

Lemma lookup_of_test s p :
  (exists_ s p = true ↔ is_Some (fs s !! p)) ∧
  (isDir s p = true ↔ ∃ cs, fs s !! p = Some (Dir cs)) ∧
  (isFile s p = true ↔ ∃ c n, fs s !! p = Some (File c n)).
Proof.
  unfold isDir, isFile, exists_. destruct (fs s !! p) as [[cs|c n]|] eqn:Hp.
  - rewrite bool_decide_eq_true_2 by eauto. simpl. split_and!; split; naive_solver.
  - rewrite bool_decide_eq_true_2 by eauto. simpl. split_and!; split; naive_solver.
  - rewrite bool_decide_eq_false_2 by (by intros [? ?]). simpl.
    split_and!; split; naive_solver.
Qed.

Lemma exists_true s p : exists_ s p = true ↔ is_Some (fs s !! p).
Proof. apply lookup_of_test. Qed.

Lemma exists_false s p : exists_ s p = false ↔ fs s !! p = None.
Proof.
  rewrite <- not_true_iff_false, exists_true, <- eq_None_not_Some. done.
Qed.

Lemma isDir_true s p : isDir s p = true ↔ ∃ cs, fs s !! p = Some (Dir cs).
Proof. apply lookup_of_test. Qed.

Lemma isFile_true s p : isFile s p = true ↔ ∃ c n, fs s !! p = Some (File c n).
Proof. apply lookup_of_test. Qed.

(** A new entry under an existing directory, its name pushed onto the
    children. *)
Lemma TreeInv_create t p e cs :
  TreeInv t → t !! p = None → single_rooted p →
  t !! parent_of p = Some (Dir cs) →
  e = Dir [] ∨ (∃ c n, e = File c n) →
  TreeInv (<[parent_of p := Dir (cs ++ [name_of p])]> (<[p := e]> t)).
Proof.
  intros [Hroot Hpar Huniq Hrooted Hchild] Hnew Hp Hparent He.
  assert (p ≠ "/") as Hp_root by (destruct Hroot as [? ?]; congruence).
  assert (parent_of p ≠ p) as Hne by congruence.
  split.
  - destruct Hroot as [rs Hrs]. unfold root_is_dir.
    destruct (decide (parent_of p = "/")) as [->|?].
    + rewrite lookup_insert_eq. eauto.
    + rewrite !lookup_insert_ne by congruence. eauto.
  - intros k Hk Hk_root.
    assert (k = p ∨ is_Some (t !! k)) as [->|Hk_old].
    { rewrite !lookup_insert in Hk. repeat case_decide; subst; eauto. }
    + rewrite lookup_insert_eq. eexists. split; [done|]. set_solver.
    + destruct (Hpar k Hk_old Hk_root) as (ks & Hks & Hin).
      destruct (decide (parent_of p = parent_of k)) as [Heq|?].
      * rewrite <- Heq, lookup_insert_eq. eexists. split; [done|].
        rewrite Heq in Hparent. simplify_eq. set_solver.
      * rewrite !lookup_insert_ne by congruence. eauto.
  - intros d ds Hd. rewrite !lookup_insert in Hd.
    repeat case_decide; simplify_eq.
    + apply NoDup_app. split_and!; [by eapply Huniq| |apply NoDup_singleton].
      intros c Hc ->%list_elem_of_singleton.
      destruct (Hchild _ _ _ Hparent Hc) as (q & Hq & Hq_root & Hq_par & Hq_name).
      assert (q = p) as ->; [|by destruct Hq; congruence].
      apply same_parent_same_name; auto.
    + destruct He as [?|(c & n & ?)]; simplify_eq. constructor.
    + by eapply Huniq.
  - intros k Hk Hk_root. rewrite !lookup_insert in Hk.
    repeat case_decide; subst; eauto.
  - intros d ds c Hd Hc. rewrite !lookup_insert in Hd.
    assert (∀ q, is_Some (t !! q) →
              is_Some (<[parent_of p:=Dir (cs ++ [name_of p])]> (<[p:=e]> t) !! q)) as Hkeep.
    { intros q Hq. rewrite !lookup_insert. repeat case_decide; eauto. }
    repeat case_decide; simplify_eq.
    + apply elem_of_app in Hc as [Hc| ->%list_elem_of_singleton].
      * destruct (Hchild _ _ _ Hparent Hc) as (q & ? & ? & ? & ?). exists q. eauto.
      * exists p. split_and!; auto. rewrite lookup_insert_ne, lookup_insert_eq by done. eauto.
    + destruct He as [?|(? & ? & ?)]; simplify_eq. set_solver.
    + destruct (Hchild _ _ _ Hd Hc) as (q & ? & ? & ? & ?). exists q. eauto.
Qed.

(** The content of a file replaced. *)
Lemma TreeInv_write t p c n c' n' :
  TreeInv t → t !! p = Some (File c n) → TreeInv (<[p := File c' n']> t).
Proof.
  intros [Hroot Hpar Huniq Hrooted Hchild] Hp.
  assert (∀ q, is_Some (<[p := File c' n']> t !! q) ↔ is_Some (t !! q)) as Hdom.
  { intros q. rewrite lookup_insert. case_decide; subst; rewrite ?Hp; split; eauto. }
  assert (∀ q ds, <[p := File c' n']> t !! q = Some (Dir ds) ↔ t !! q = Some (Dir ds)) as Hdir.
  { intros q ds. rewrite lookup_insert. case_decide; subst; rewrite ?Hp; split; done. }
  split.
  - destruct Hroot as [rs Hrs]. exists rs. by apply Hdir.
  - intros k Hk Hk_root. destruct (Hpar k) as (ks & ? & ?); [by apply Hdom|done|].
    exists ks. by rewrite Hdir.
  - intros d ds Hd. eapply Huniq. by apply Hdir.
  - intros k Hk. apply Hrooted. by apply Hdom.
  - intros d ds x Hd Hx. apply Hdir in Hd.
    destruct (Hchild _ _ _ Hd Hx) as (q & ? & ? & ? & ?).
    exists q. by rewrite Hdom.
Qed.

(** An entry without entries below it deleted, its name spliced out of
    the children of its parent. *)
Lemma TreeInv_remove t p cs :
  TreeInv t → is_Some (t !! p) → p ≠ "/" →
  (∀ k, is_Some (t !! k) → k ≠ "/" → parent_of k ≠ p) →
  t !! parent_of p = Some (Dir cs) →
  TreeInv (<[parent_of p := Dir (JS.splice_out (name_of p) cs)]> (delete p t)).
Proof.
  intros [Hroot Hpar Huniq Hrooted Hchild] Hp Hp_root Hleaf Hparent.
  assert (parent_of p ≠ p) as Hne by (apply parent_of_ne; auto).
  assert (∀ q, is_Some (<[parent_of p := Dir (JS.splice_out (name_of p) cs)]> (delete p t) !! q)
               ↔ is_Some (t !! q) ∧ q ≠ p) as Hdom.
  { intros q. rewrite lookup_insert. case_decide; subst.
    - split; [eauto|]. eauto.
    - rewrite lookup_delete. case_decide; subst; split; naive_solver. }
  split.
  - destruct Hroot as [rs Hrs]. unfold root_is_dir.
    destruct (decide (parent_of p = "/")) as [->|?].
    + rewrite lookup_insert_eq. eauto.
    + rewrite lookup_insert_ne, lookup_delete_ne by congruence. eauto.
  - intros k [Hk Hkp]%Hdom Hk_root.
    destruct (Hpar k Hk Hk_root) as (ks & Hks & Hin).
    destruct (decide (parent_of p = parent_of k)) as [Heq|?].
    + rewrite <- Heq, lookup_insert_eq. eexists. split; [done|].
      rewrite <- Heq in Hks. simplify_eq. apply splice_out_keeps; [done|].
      intros Hname. apply Hkp. apply same_parent_same_name; auto.
    + rewrite lookup_insert_ne by done.
      rewrite lookup_delete_ne by (intros ->; by eapply Hleaf).
      eauto.
  - intros d ds Hd. rewrite lookup_insert in Hd. case_decide; simplify_eq.
    + apply splice_out_NoDup. by eapply Huniq.
    + rewrite lookup_delete in Hd. case_decide; [done|]. by eapply Huniq.
  - intros k [Hk _]%Hdom. by apply Hrooted.
  - intros d ds c Hd Hc. rewrite lookup_insert in Hd. case_decide; simplify_eq.
    + assert (c ∈ cs) as Hc' by (by eapply splice_out_subseteq).
      destruct (Hchild _ _ _ Hparent Hc') as (q & ? & ? & ? & ?).
      exists q. split_and!; auto. apply Hdom. split; [done|]. intros ->.
      subst c. eapply splice_out_gone; [|done]. by eapply Huniq.
    + rewrite lookup_delete in Hd. case_decide; [done|].
      destruct (Hchild _ _ _ Hd Hc) as (q & ? & ? & ? & ?).
      exists q. split_and!; auto. apply Hdom. split; [done|]. by intros ->.
Qed.

End TreeSteps.

(** ** What each method does to the state *)

Section Methods.
Context `{Platform}.
Implicit Types s : State.

Lemma resolvePath_cwd s s' p :
  currentDir s = currentDir s' → resolvePath s p = resolvePath s' p.
Proof. intros Hcwd. unfold resolvePath. by rewrite Hcwd. Qed.

Lemma fs_saveFS s : fs (saveFS s) = fs s.
Proof. reflexivity. Qed.

Lemma fs_with_fs f s : fs (with_fs f s) = f (fs s).
Proof. reflexivity. Qed.

(** [rm] runs its body once at least. *)
Lemma rm_unfold path recursive s :
  ∃ fuel, rm path recursive s = rm_body (rm_fuel fuel) path recursive s.
Proof. by eexists. Qed.

Lemma parent_of_root : parent_of "/" = "/".
Proof. reflexivity. Qed.

Lemma lookup_absolute t p :
  TreeInv t → is_Some (t !! p) → JS.startsWith p "/" = true.
Proof.
  intros Ht Hp. destruct (decide (p = "/")) as [->|Hne]; [done|].
  by apply single_rooted_absolute, (inv_rooted _ Ht).
Qed.

(** [mkdir]: either the new directory is linked under its parent, or
    nothing changes. *)
Lemma mkdir_spec path s s' r :
  mkdir path s = (s', r) →
  let p := resolvePath s path in
  (r = Success ∧ fs s !! p = None ∧ currentDir s' = currentDir s ∧
   ∃ cs, fs s !! parent_of p = Some (Dir cs) ∧
         fs s' = <[parent_of p := Dir (cs ++ [name_of p])]> (<[p := Dir []]> (fs s)))
  ∨ (is_error r = true ∧ s' = s).
Proof.
  intros Hrun p. unfold mkdir in Hrun. fold p in Hrun.
  destruct (exists_ s p) eqn:Hex; [right; by simplify_eq|].
  apply exists_false in Hex.
  destruct (isDir s (parent_of p)) eqn:Hdir; simpl in Hrun; [|right; by simplify_eq].
  apply isDir_true in Hdir as [cs Hcs]. left. simplify_eq. simpl.
  split_and!; [done..|]. exists cs. split; [done|].
  unfold push_child. rewrite lookup_insert_ne by congruence. by rewrite Hcs.
Qed.

(** [touch]: nothing changes where the path exists or the parent is
    missing; otherwise an empty file is linked under the parent. *)
Lemma touch_spec path s s' r :
  touch path s = (s', r) →
  let p := resolvePath s path in
  (r = Success ∧ is_Some (fs s !! p) ∧ s' = s)
  ∨ (r = Success ∧ fs s !! p = None ∧ currentDir s' = currentDir s ∧
     clock s' = clock s ∧
     ∃ cs, fs s !! parent_of p = Some (Dir cs) ∧
           fs s' = <[parent_of p := Dir (cs ++ [name_of p])]>
                     (<[p := File "" (clock s)]> (fs s)))
  ∨ (is_error r = true ∧ s' = s).
Proof.
  intros Hrun p. unfold touch in Hrun. fold p in Hrun.
  destruct (exists_ s p) eqn:Hex.
  { left. apply exists_true in Hex. by simplify_eq. }
  apply exists_false in Hex. right.
  destruct (isDir s (parent_of p)) eqn:Hdir; simpl in Hrun; [|right; by simplify_eq].
  apply isDir_true in Hdir as [cs Hcs]. left. simplify_eq. simpl.
  split_and!; [done..|]. exists cs. split; [done|].
  unfold push_child. rewrite lookup_insert_ne by congruence. by rewrite Hcs.
Qed.

Lemma mkdir_inv path s s' r :
  mkdir path s = (s', r) → TreeInv (fs s) → single_rooted (resolvePath s path) →
  TreeInv (fs s').
Proof.
  intros Hrun Ht Hp.
  destruct (mkdir_spec _ _ _ _ Hrun) as [(_ & Hnew & _ & cs & Hcs & ->)|[_ ->]]; [|done].
  apply TreeInv_create; auto.
Qed.

Lemma touch_inv path s s' r :
  touch path s = (s', r) → TreeInv (fs s) → single_rooted (resolvePath s path) →
  TreeInv (fs s').
Proof.
  intros Hrun Ht Hp.
  destruct (touch_spec _ _ _ _ Hrun)
    as [(_ & _ & ->)|[(_ & Hnew & _ & _ & cs & Hcs & ->)|[_ ->]]]; [done| |done].
  apply TreeInv_create; eauto.
Qed.

Lemma writeFile_inv path content append s s' r :
  writeFile path content append s = (s', r) →
  TreeInv (fs s) → single_rooted (resolvePath s path) →
  TreeInv (fs s').
Proof.
  unfold writeFile. intros Hrun Ht Hp.
  set (p := resolvePath s path) in *.
  assert (resolvePath s p = p) as Hpp
    by (by apply resolvePath_absolute, single_rooted_absolute).
  destruct (negb (exists_ s p)) eqn:Hex.
  - destruct (touch p s) as [s1 r1] eqn:Htouch.
    assert (TreeInv (fs s1)) as Ht1 by (eapply touch_inv; eauto; by rewrite Hpp).
    destruct (is_error r1); [by simplify_eq|].
    destruct (isFile s1 p) eqn:Hfile; simpl in Hrun; [|by simplify_eq].
    apply isFile_true in Hfile as (c & n & Hc). simplify_eq. simpl.
    unfold set_content. rewrite Hc. by eapply TreeInv_write.
  - simpl in Hrun.
    destruct (isFile s p) eqn:Hfile; simpl in Hrun; [|by simplify_eq].
    apply isFile_true in Hfile as (c & n & Hc). simplify_eq. simpl.
    unfold set_content. rewrite Hc. by eapply TreeInv_write.
Qed.

Lemma cp_inv src dest s s' r :
  cp src dest s = (s', r) →
  TreeInv (fs s) → single_rooted (resolvePath s dest) →
  TreeInv (fs s').
Proof.
  unfold cp. intros Hrun Ht Hp.
  destruct (negb (exists_ s (resolvePath s src))); [by simplify_eq|].
  destruct (isDir s (resolvePath s src)); [by simplify_eq|].
  destruct (readFile (resolvePath s src) s); simplify_eq; try done.
  eapply writeFile_inv; eauto.
  by rewrite resolvePath_absolute by (by apply single_rooted_absolute).
Qed.

End Methods.

(** ** [rm] *)

Section Remove.
Context `{Platform}.
Implicit Types s : State.

Lemma keys_shrink_refl t : keys_shrink t t.
Proof. by intros k. Qed.

Lemma keys_shrink_trans t1 t2 t3 :
  keys_shrink t1 t2 → keys_shrink t2 t3 → keys_shrink t1 t3.
Proof. intros H12 H23 k Hk. eauto. Qed.

Lemma dirs_kept_refl n t : dirs_kept n t t.
Proof. intros k cs _ Hk. eauto. Qed.

Lemma dirs_kept_trans n m t1 t2 t3 :
  (n ≤ m)%nat → dirs_kept m t1 t2 → dirs_kept n t2 t3 → dirs_kept n t1 t3.
Proof.
  intros Hnm H12 H23 k cs Hlen Hk.
  destruct (H12 k cs) as (cs' & Hk' & Hsub); [lia|done|].
  destruct (H23 k cs' Hlen Hk') as (cs'' & Hk'' & Hsub').
  exists cs''. split; [done|]. set_solver.
Qed.

Lemma child_absolute p c :
  JS.startsWith p "/" = true → JS.startsWith (p +:+ "/" +:+ c) "/" = true.
Proof.
  intros [t ->]%Str.startsWith_inv. rewrite Str.app_assoc. apply Str.startsWith_app.
Qed.

Lemma child_longer p c :
  (String.length p < String.length (p +:+ "/" +:+ c))%nat.
Proof. rewrite !Str.length_app. simpl. lia. Qed.

Lemma child_not_root p c :
  JS.startsWith p "/" = true → p +:+ "/" +:+ c ≠ "/".
Proof.
  intros [t ->]%Str.startsWith_inv Heq.
  apply (f_equal String.length) in Heq. rewrite !Str.length_app in Heq.
  simpl in Heq. lia.
Qed.

(** The loop over the children. *)
Lemma rm_children_ok f p children s s' a :
  rm_ok f → JS.startsWith p "/" = true →
  rm_children f p children s = (s', a) → TreeInv (fs s) →
  currentDir s' = currentDir s ∧
  match a with
  | Some Unfinished => True
  | Some _ => False
  | None =>
      TreeInv (fs s') ∧ keys_shrink (fs s) (fs s') ∧
      dirs_kept (String.length p) (fs s) (fs s') ∧
      ∀ c, c ∈ children → fs s' !! (p +:+ "/" +:+ c) = None
  end.
Proof.
  intros Hf Hp. revert s. induction children as [|c rest IH]; intros s Hrun Ht.
  { simpl in Hrun. simplify_eq. split; [done|].
    split_and!; [done|apply keys_shrink_refl|apply dirs_kept_refl|set_solver]. }
  simpl in Hrun.
  destruct (f (p +:+ "/" +:+ c) true s) as [s1 c1] eqn:Hcall.
  destruct (Hf _ _ _ _ _ Hcall Ht) as [Hcwd Hc1].
  rewrite resolvePath_absolute in Hc1 by (by apply child_absolute).
  destruct c1 as [res| |].
  - destruct Hc1 as (Ht1 & Hshrink & Hkept & Hgone).
    destruct (IH _ Hrun Ht1) as [Hcwd' Ha]. split; [congruence|].
    destruct a as [[]|]; try done.
    destruct Ha as (Ht' & Hshrink' & Hkept' & Hgone').
    split_and!; [done|by eapply keys_shrink_trans| |].
    + eapply dirs_kept_trans; [|done..]. pose proof (child_longer p c). lia.
    + intros x [->|Hx]%elem_of_cons; [|by apply Hgone'].
      apply eq_None_not_Some. intros Hx%Hshrink'.
      rewrite Hgone in Hx by done. by destruct Hx.
  - simplify_eq. by apply child_not_root in Hc1.
  - by simplify_eq.
Qed.

(** The last statements of [rm]: [delete], the splice, [saveFS]. *)
Lemma rm_unlink_ok p s1 :
  TreeInv (fs s1) → is_Some (fs s1 !! p) →
  (p ≠ "/" → ∀ k, is_Some (fs s1 !! k) → k ≠ "/" → parent_of k ≠ p) →
  let s2 := with_fs (delete p) s1 in
  match fs s2 !! parent_of p with
  | Some (Dir children) =>
      let s3 := saveFS (with_fs (<[parent_of p := Dir (JS.splice_out (name_of p) children)]>) s2) in
      p ≠ "/" ∧ TreeInv (fs s3) ∧ keys_shrink (fs s1) (fs s3) ∧
      dirs_kept (String.length p - 1) (fs s1) (fs s3) ∧ fs s3 !! p = None
  | _ => p = "/"
  end.
Proof.
  intros Ht Hp Hleaf. simpl.
  destruct (decide (p = "/")) as [->|Hne].
  { rewrite parent_of_root, lookup_delete_eq. done. }
  assert (single_rooted p) as Hsr by (by apply (inv_rooted _ Ht)).
  destruct (single_rooted_split p Hsr Hne) as [_ Hlen].
  assert (parent_of p ≠ p) as Hpar_ne by (by apply parent_of_ne).
  destruct (inv_parent _ Ht p Hp Hne) as (cs & Hcs & Hin).
  rewrite lookup_delete_ne, Hcs by done. simpl.
  split_and!; [done| | | |].
  - apply TreeInv_remove; auto.
  - intros k. rewrite lookup_insert. case_decide; subst; [eauto|].
    rewrite lookup_delete. case_decide; [by intros [? ?]|done].
  - intros k ks Hk_len Hk. rewrite lookup_insert. case_decide; simplify_eq.
    + eexists. split; [done|]. apply splice_out_subseteq.
    + rewrite lookup_delete_ne by (intros ->; lia). eauto.
  - rewrite lookup_insert_ne, lookup_delete_eq; done.
Qed.

Lemma rm_body_ok f : rm_ok f → rm_ok (rm_body f).
Proof.
  intros Hf q r s s' c Hrun Ht. unfold rm_body in Hrun.
  set (p := resolvePath s q) in *.
  destruct (exists_ s p) eqn:Hex; simpl in Hrun; cycle 1.
  { simplify_eq. apply exists_false in Hex. split; [done|].
    split_and!; [done|apply keys_shrink_refl|apply dirs_kept_refl|done]. }
  apply exists_true in Hex.
  pose proof (lookup_absolute _ _ Ht Hex) as Habs.
  destruct (isDir s p) eqn:Hdir; simpl in Hrun.
  - apply isDir_true in Hdir as [cs Hcs]. rewrite Hcs in Hrun.
    destruct r; simpl in Hrun; cycle 1.
    { simplify_eq. split; [done|].
      split_and!; [done|apply keys_shrink_refl|apply dirs_kept_refl|done]. }
    destruct (rm_children f p cs s) as [s1 a] eqn:Hloop.
    destruct (rm_children_ok _ _ _ _ _ _ Hf Habs Hloop Ht) as [Hcwd Ha].
    destruct a as [[]|]; try done; [by simplify_eq|].
    destruct Ha as (Ht1 & Hshrink & Hkept & Hgone).
    destruct (Hkept p cs) as (cs1 & Hcs1 & Hsub); [lia|done|].
    assert (p ≠ "/" → ∀ k, is_Some (fs s1 !! k) → k ≠ "/" → parent_of k ≠ p) as Hleaf.
    { intros Hne k Hk Hk_root Hk_par.
      destruct (inv_parent _ Ht1 k Hk Hk_root) as (ks & Hks & Hin).
      rewrite Hk_par in Hks. simplify_eq.
      destruct (single_rooted_split k) as [Hk_split _];
        [by apply (inv_rooted _ Ht1)|done|].
      rewrite Hk_par in Hk_split. unfold child_path in Hk_split.
      rewrite decide_False in Hk_split by done.
      rewrite Hk_split, Hgone in Hk by set_solver. by destruct Hk. }
    pose proof (rm_unlink_ok p s1 Ht1 (ltac:(eauto)) Hleaf) as Hlast. simpl in Hlast.
    destruct (delete p (fs s1) !! parent_of p) as [[children|]|] eqn:Hpar;
      simplify_eq; simpl; [|done..].
    destruct Hlast as (Hne & Ht' & Hshrink' & Hkept' & Hgone').
    split; [done|]. split_and!; [done|by eapply keys_shrink_trans| |done].
    eapply dirs_kept_trans; [|done..]. lia.
  - assert (∃ content n, fs s !! p = Some (File content n)) as (content & n & Hfile).
    { destruct Hex as [[cs|content n] Hx]; [|by eauto].
      assert (isDir s p = true) by (apply isDir_true; eauto). congruence. }
    assert (p ≠ "/" → ∀ k, is_Some (fs s !! k) → k ≠ "/" → parent_of k ≠ p) as Hleaf.
    { intros Hne k Hk Hk_root Hk_par.
      destruct (inv_parent _ Ht k Hk Hk_root) as (ks & Hks & Hin). congruence. }
    pose proof (rm_unlink_ok p s Ht Hex Hleaf) as Hlast. simpl in Hlast.
    destruct (delete p (fs s) !! parent_of p) as [[children|]|] eqn:Hpar;
      simplify_eq; simpl; [|done..].
    by destruct Hlast as (Hne & Ht' & Hshrink' & Hkept' & Hgone').
Qed.

Lemma rm_fuel_ok fuel : rm_ok (rm_fuel fuel).
Proof.
  induction fuel as [|fuel IH]; [|by apply rm_body_ok].
  intros q r s s' c Hrun _. simpl in Hrun. by simplify_eq.
Qed.

Lemma rm_is_ok : rm_ok rm.
Proof. intros q r s s' c Hrun. by apply (rm_fuel_ok (rm_depth s)). Qed.

End Remove.

(** ** [rm] returns or throws: the recursion is never cut short *)

Section Termination.
Context `{Platform}.
Implicit Types s : State.

Lemma has_slash c (p t : string) : JS.last_index c (p +:+ String c "" +:+ t) ≠ None.
Proof.
  induction p as [|x p IH]; [apply last_index_head|].
  rewrite Str.app_cons. simpl. by destruct (JS.last_index c _).
Qed.

Lemma slice1_length (q : string) :
  String.length (JS.slice1 q) = (String.length q - 1)%nat.
Proof. destruct q; simpl; lia. Qed.

(** The path of a nested call resolves to a longer path than its caller's. *)
Lemma resolve_child_longer s p c :
  (String.length p < String.length (resolvePath s (p +:+ "/" +:+ c)))%nat.
Proof.
  pose proof (child_longer p c) as Hlen.
  pose proof (has_slash "/" p c) as Hslash.
  unfold resolvePath.
  destruct (JS.startsWith _ "/"); [done|].
  case_decide as H1; [by rewrite H1 in Hslash|].
  destruct (JS.startsWith _ "~/").
  { rewrite Str.length_app, slice1_length. simpl. lia. }
  case_decide as H2; [by rewrite H2 in Hslash|].
  case_decide as H3; [by rewrite H3 in Hslash|].
  rewrite !Str.length_app. simpl. lia.
Qed.

(** The loop is left early by an exception only. *)
Lemma rm_children_abrupt f p children s c :
  (rm_children f p children s).2 = Some c → ∀ r, c ≠ Returned r.
Proof.
  revert s. induction children as [|x rest IH]; intros s; simpl; [done|].
  destruct (f (p +:+ "/" +:+ x) true s) as [s1 [res| |]]; simpl;
    [apply IH|intros [= <-]; done..].
Qed.

Lemma rm_children_shrinks f p children s :
  rm_shrinks f → keys_shrink (fs s) (fs (rm_children f p children s).1).
Proof.
  intros Hf. revert s. induction children as [|c rest IH]; intros s; simpl.
  { apply keys_shrink_refl. }
  pose proof (Hf (p +:+ "/" +:+ c) true s) as Hcall.
  destruct (f (p +:+ "/" +:+ c) true s) as [s1 [res| |]]; simpl in *; [|done..].
  eapply keys_shrink_trans; [done|apply IH].
Qed.

Lemma rm_body_shrinks f : rm_shrinks f → rm_shrinks (rm_body f).
Proof.
  intros Hf q r s. unfold rm_body. set (p := resolvePath s q).
  destruct (exists_ s p); simpl; [|apply keys_shrink_refl].
  destruct (isDir s p && negb r); simpl; [apply keys_shrink_refl|].
  assert (∃ s1 a, (if isDir s p && r
                   then rm_children f p match fs s !! p with
                                        | Some (Dir children) => children
                                        | _ => []
                                        end s
                   else (s, None)) = (s1, a) ∧ keys_shrink (fs s) (fs s1))
    as (s1 & a & -> & Hshrink).
  { destruct (isDir s p && r).
    - pose proof (rm_children_shrinks f p
        match fs s !! p with Some (Dir children) => children | _ => [] end s Hf) as Hloop.
      destruct (rm_children _ _ _ _) as [s1 a]. eauto.
    - eexists _, _. split; [done|]. apply keys_shrink_refl. }
  assert (keys_shrink (fs s) (delete p (fs s1))) as Hdel.
  { intros k Hk. apply Hshrink. rewrite lookup_delete in Hk. by case_decide. }
  destruct a as [c|]; [done|]. simpl.
  destruct (delete p (fs s1) !! parent_of p) as [[children|]|] eqn:Hpar; simpl; [|done..].
  intros k Hk. rewrite lookup_insert in Hk. case_decide; subst; apply Hdel; eauto.
Qed.

Lemma rm_fuel_shrinks fuel : rm_shrinks (rm_fuel fuel).
Proof.
  induction fuel as [|fuel IH]; [|by apply rm_body_shrinks].
  intros q r s. apply keys_shrink_refl.
Qed.

Lemma rm_children_finish slack f p children s :
  rm_shrinks f → rm_finishes_within slack f →
  (∀ k, is_Some (fs s !! k) → (String.length k < S slack + String.length p)%nat) →
  (rm_children f p children s).2 ≠ Some Unfinished.
Proof.
  intros Hshrink Hf. revert s. induction children as [|c rest IH]; intros s Hkeys; simpl.
  { done. }
  pose proof (Hf (p +:+ "/" +:+ c) true s) as Hcall.
  pose proof (Hshrink (p +:+ "/" +:+ c) true s) as Hsub.
  destruct (f (p +:+ "/" +:+ c) true s) as [s1 [res| |]]; simpl in *; [|done|].
  - apply IH. intros k Hk. apply Hkeys. by apply Hsub.
  - exfalso. apply Hcall; [|done]. intros k Hk.
    pose proof (resolve_child_longer s p c). specialize (Hkeys k Hk). lia.
Qed.

Lemma rm_body_finishes slack f :
  rm_shrinks f → rm_finishes_within slack f →
  rm_finishes_within (S slack) (rm_body f).
Proof.
  intros Hshrink Hf q r s Hkeys. unfold rm_body. set (p := resolvePath s q) in *.
  destruct (exists_ s p); simpl; [|done].
  destruct (isDir s p && negb r); simpl; [done|].
  destruct (isDir s p && r).
  - pose proof (rm_children_finish slack f p
      match fs s !! p with Some (Dir children) => children | _ => [] end s
      Hshrink Hf Hkeys) as Hloop.
    destruct (rm_children _ _ _ _) as [s1 [c|]]; simpl in *.
    + congruence.
    + by destruct (delete p (fs s1) !! parent_of p) as [[?|]|].
  - simpl. by destruct (delete p (fs s) !! parent_of p) as [[?|]|].
Qed.

Lemma rm_fuel_finishes slack : rm_finishes_within slack (rm_fuel (S slack)).
Proof.
  induction slack as [|slack IH].
  - intros q r s Hkeys. simpl. unfold rm_body.
    destruct (exists_ s (resolvePath s q)) eqn:Hex; simpl; [|done].
    apply exists_true, Hkeys in Hex. lia.
  - apply rm_body_finishes; [apply (rm_fuel_shrinks (S slack))|done].
Qed.

Lemma rm_depth_bounds s k :
  is_Some (fs s !! k) → (S (String.length k) < rm_depth s)%nat.
Proof.
  intros [e He]. unfold rm_depth.
  assert (String.length k ∈ String.length <$> (map_to_list (fs s)).*1) as Hin.
  { apply list_elem_of_fmap. exists k. split; [done|].
    apply list_elem_of_fmap. exists (k, e). split; [done|].
    by apply elem_of_map_to_list. }
  apply max_list_elem_of_le in Hin. lia.
Qed.

(** [rm] always returns a result or throws. *)
Lemma rm_finishes path recursive s : (rm path recursive s).2 ≠ Unfinished.
Proof.
  unfold rm, rm_depth. apply rm_fuel_finishes. intros k Hk.
  pose proof (rm_depth_bounds s k Hk). unfold rm_depth in *. lia.
Qed.

End Termination.

(** ** The default layout *)

Section DefaultLayout.

Lemma default_entries p e :
  default_fs !! p = Some e ↔ (p, e) ∈ default_entries_list.
Proof.
  unfold default_entries_list. split; cycle 1.
  { intros Hin. repeat (apply elem_of_cons in Hin as [Hin|Hin]; [by simplify_eq|]).
    by apply elem_of_nil in Hin. }
  unfold default_fs. intros Hp.
  repeat (rewrite lookup_insert in Hp; case_decide; [simplify_eq; set_solver|]).
  by rewrite lookup_empty in Hp.
Qed.

Local Ltac each_entry H :=
  apply default_entries in H; unfold default_entries_list in H;
  repeat (apply elem_of_cons in H as [H|H]; [simplify_eq|]);
  [..|by apply elem_of_nil in H].

Local Ltac each_child H :=
  repeat (apply elem_of_cons in H as [H|H]; [simplify_eq|]);
  try (by apply elem_of_nil in H).

Lemma default_fs_inv : TreeInv default_fs.
Proof.
  split.
  - by eexists.
  - intros p [e He] Hne. each_entry He; try done;
      (eexists; split; [reflexivity|compute_done]).
  - intros d cs Hd. each_entry Hd; compute_done.
  - intros p [e He] Hne. each_entry He; try done; compute_done.
  - intros d cs c Hd Hc. each_entry Hd; each_child Hc;
      match goal with
      | |- ∃ p, _ ∧ _ ∧ parent_of p = ?d ∧ name_of p = ?c => exists (child_path d c)
      end; compute_done.
Qed.


End DefaultLayout.

(** ** Persistence *)

Section Persistence.
Context `{Platform}.

Lemma names_round_trip (names : list string) :
  mapM json_to_name (JStr <$> names) = Some names.
Proof.
  apply mapM_Some. induction names as [|n names IH]; csimpl; by constructor.
Qed.

Lemma entry_round_trip e : json_to_entry (entry_to_json e) = Some e.
Proof. destruct e as [cs|c n]; csimpl; [|done]. by rewrite names_round_trip. Qed.

Lemma entries_round_trip (l : list (string * entry)) :
  mapM (λ kv, (kv.1,.) <$> json_to_entry kv.2) (prod_map id entry_to_json <$> l) = Some l.
Proof.
  apply mapM_Some. induction l as [|[k e] l IH]; csimpl; constructor; [|done].
  simpl. by rewrite entry_round_trip.
Qed.

(** The tree is read back from the JSON value it was written as: the same
    keys, the same children in the same order, the same contents. *)
Lemma tree_round_trip (t : gmap string entry) : json_to_tree (tree_to_json t) = Some t.
Proof.
  unfold json_to_tree, tree_to_json. rewrite entries_round_trip. simpl.
  by rewrite list_to_map_to_list.
Qed.

Lemma tree_truthy (t : gmap string entry) : truthy (tree_to_json t) = true.
Proof. done. Qed.

Lemma loadFS_saved `{!PlatformContract} (t : gmap string entry) :
  loadFS (Some (JSON_stringify (tree_to_json t))) = tree_to_json t.
Proof.
  unfold loadFS. pose proof (stringify_nonempty t) as Hne.
  destruct (JSON_stringify (tree_to_json t)) eqn:Htext; [done|].
  by rewrite <- Htext, parse_stringify.
Qed.

Lemma saveFS_in_sync `{!PlatformContract} s : in_sync (saveFS s).
Proof. unfold in_sync, saveFS. simpl. by rewrite storage_never_full. Qed.

Lemma constructor_fallback item now :
  item = None ∨ (∃ data, item = Some data ∧ JSON_parse data = None) →
  constructor item now = Some (saveFS (mkState default_fs "/home/user" item now)).
Proof.
  intros Hitem. unfold constructor, initial_fs.
  assert (loadFS item = JNull) as ->.
  { destruct Hitem as [->|(data & -> & Hbad)]; [done|].
    unfold loadFS. destruct data; [done|]. by rewrite Hbad. }
  simpl truthy. cbv iota. by rewrite tree_round_trip.
Qed.

(** Every method that returns leaves the stored item in step with the tree. *)
Lemma apply_in_sync `{!PlatformContract} m s s' r :
  in_sync s → apply m s = (s', Returned r) → in_sync s'.
Proof.
  intros Hs Hrun.
  assert (∀ p s0 s1 r1, in_sync s0 → touch p s0 = (s1, r1) → in_sync s1) as Htouch.
  { intros p s0 s1 r1 Hs0 Hop. unfold touch in Hop.
    destruct (exists_ s0 _); [by simplify_eq|].
    destruct (negb (isDir s0 _)); simplify_eq; [done|apply saveFS_in_sync]. }
  assert (∀ p c a s0 s1 r1, in_sync s0 → writeFile p c a s0 = (s1, r1) → in_sync s1)
    as Hwrite.
  { intros p c a s0 s1 r1 Hs0 Hop. unfold writeFile in Hop.
    destruct (if negb (exists_ s0 _) then _ else _) as [s2 r2] eqn:Hfirst.
    assert (in_sync s2).
    { destruct (negb (exists_ s0 _)); [by eapply Htouch|by simplify_eq]. }
    destruct (is_error r2); [by simplify_eq|].
    destruct (negb (isFile s2 _)); simplify_eq; [done|apply saveFS_in_sync]. }
  assert (∀ a b s0 s1 r1, in_sync s0 → cp a b s0 = (s1, r1) → in_sync s1) as Hcp.
  { intros a b s0 s1 r1 Hs0 Hop. unfold cp in Hop.
    destruct (negb (exists_ s0 _)); [by simplify_eq|].
    destruct (isDir s0 _); [by simplify_eq|].
    destruct (readFile _ s0); try (by simplify_eq). by eapply Hwrite. }
  assert (∀ p rec s0 s1 r1, in_sync s0 → rm p rec s0 = (s1, Returned r1) → in_sync s1)
    as Hrm.
  { intros p rec s0 s1 r1 Hs0 Hop. destruct (rm_unfold p rec s0) as [fuel Hf].
    rewrite Hf in Hop. set (f := rm_fuel fuel) in *. unfold rm_body in Hop.
    destruct (negb (exists_ s0 _)); [by simplify_eq|].
    destruct (isDir s0 _ && negb rec); [by simplify_eq|].
    destruct (isDir s0 _ && rec).
    - pose proof (rm_children_abrupt f (resolvePath s0 p)
        match fs s0 !! resolvePath s0 p with Some (Dir children) => children | _ => [] end
        s0) as Hloop.
      destruct (rm_children f _ _ s0) as [s2 [c|]].
      { simplify_eq. by destruct (Hloop _ eq_refl r1). }
      destruct (fs (with_fs _ s2) !! _) as [[?|]|]; simplify_eq. apply saveFS_in_sync.
    - destruct (fs (with_fs _ s0) !! _) as [[?|]|]; simplify_eq. apply saveFS_in_sync. }
  destruct m; simpl in Hrun.
  - unfold mkdir in Hrun. destruct (exists_ s _); [by simplify_eq|].
    destruct (negb (isDir s _)); simplify_eq; [done|apply saveFS_in_sync].
  - destruct (touch path s) eqn:?. simplify_eq. by eapply Htouch.
  - destruct (writeFile path content append s) eqn:?. simplify_eq. by eapply Hwrite.
  - by eapply Hrm.
  - destruct (cp src dest s) eqn:?. simplify_eq. by eapply Hcp.
  - unfold mv in Hrun. destruct (cp src dest s) as [s1 r1] eqn:Hc.
    assert (in_sync s1) by (by eapply Hcp).
    destruct (is_error r1); [by simplify_eq|]. by eapply Hrm.
Qed.

Lemma reachable_in_sync `{!PlatformContract} s : reachable s → in_sync s.
Proof.
  induction 1 as [item now s Hnew|s m s' r _ IH Hrun|s path s' r _ IH Hrun|s now _ IH].
  - unfold constructor in Hnew. destruct (json_to_tree _); simplify_eq/=.
    apply saveFS_in_sync.
  - by eapply apply_in_sync.
  - unfold cd in Hrun.
    destruct (negb (exists_ s _)); [by simplify_eq|].
    destruct (negb (isDir s _)); by simplify_eq.
  - done.
Qed.

End Persistence.

(** * The claims *)

Section Claims.
Context `{Platform}.
Implicit Types s : State.

Lemma or_else_empty (c : string) : JS.or_else c "" = c.
Proof. by destruct c. Qed.

Lemma spec_invariants_of_inv s : TreeInv (fs s) → spec_invariants s.
Proof.
  intros [Hroot Hpar Huniq _ _]. split_and!; [done..|].
  intros p. unfold isDir, isFile. by destruct (fs s !! p) as [[?|? ?]|], (exists_ s p).
Qed.

Lemma resolvePath_rooted s path :
  JS.startsWith (currentDir s) "/" = true →
  JS.startsWith (resolvePath s path) "/" = true.
Proof.
  intros Hcwd. unfold resolvePath.
  destruct (JS.startsWith path "/") eqn:Hp; [done|].
  case_decide; [done|]. destruct (JS.startsWith path "~/"); [done|].
  case_decide; [done|]. case_decide.
  - by destruct (JS.join _ _).
  - apply Str.startsWith_inv in Hcwd as [t ->].
    rewrite Str.app_assoc. apply Str.startsWith_app.
Qed.

(** C1 (the code departs from it).  Every operation of the store is said
    to return a result and never to throw, [remove('/', recursive = true)]
    in particular.  On the default layout [rm('/', true)] ends in a
    [TypeError]: the nested calls look for ['//home'], ['//etc'], ... and
    remove nothing, the root is deleted, and [this.fs[parent].children] is
    then read on the deleted root.  The tree is left without its root and
    with all the other entries.  The shell command [rm -r /] ends so. *)
Theorem rm_root_recursive_throws now :
  (runTermCmd "rm -r /" (first_visit now)).2 = Aborted TypeError ∧
  (rm "/" true (first_visit now)).2 = TypeError ∧
  fs (rm "/" true (first_visit now)).1 !! "/" = None ∧
  fs (rm "/" true (first_visit now)).1 !! "/home" = Some (Dir ["user"]) ∧
  fs (rm "/" true (first_visit now)).1 !! "/tmp" = Some (Dir []).
Proof. split_and!; reflexivity. Qed.

(** C2, as amended.  A mutating operation that succeeds on a tree meeting
    invariants 1 to 3, whose keys other than ['/'] start with one ['/'] and
    in which every child name names an entry of its directory, leaves a
    tree that meets all of these again, and invariant 4, provided the paths
    it resolves its arguments to start with one ['/'] and not with two. *)
Theorem mutation_preserves_invariants (m : mutation) s s' :
  TreeInv (fs s) →
  Forall single_rooted (targets m s) →
  apply m s = (s', Returned Success) →
  TreeInv (fs s') ∧ spec_invariants s'.
Proof.
  intros Ht Htargets Hrun.
  cut (TreeInv (fs s')); [by eauto using spec_invariants_of_inv|].
  destruct m; simpl in Hrun, Htargets.
  - destruct (mkdir path s) as [s1 r] eqn:Hop. simplify_eq.
    eapply mkdir_inv; eauto. by inversion Htargets.
  - destruct (touch path s) as [s1 r] eqn:Hop. simplify_eq.
    eapply touch_inv; eauto. by inversion Htargets.
  - destruct (writeFile path content append s) as [s1 r] eqn:Hop. simplify_eq.
    eapply writeFile_inv; eauto. by inversion Htargets.
  - by destruct (rm_is_ok _ _ _ _ _ Hrun Ht) as [_ [? _]].
  - destruct (cp src dest s) as [s1 r] eqn:Hop. simplify_eq.
    eapply cp_inv; eauto. inversion Htargets as [|? ? _ Hdest]. by inversion Hdest.
  - unfold mv in Hrun. destruct (cp src dest s) as [s1 r] eqn:Hop.
    assert (TreeInv (fs s1)) as Ht1.
    { eapply cp_inv; eauto. inversion Htargets as [|? ? _ Hdest]. by inversion Hdest. }
    destruct (is_error r); [by simplify_eq|].
    by destruct (rm_is_ok _ _ _ _ _ Hrun Ht1) as [_ [? _]].
Qed.

(** C3 (the code departs from it).  [echo "hi" > /tmp/x.txt] then [cat]
    shows ["hi\n"], as claimed.  [echo "bye" >> /tmp/x.txt] is said to
    append; [fullCmd.split('>')] cuts the line at both ['>'], the file part
    is the empty piece between them, and ["bye\n"] goes to a new file with
    the empty name under the current directory.  [cat /tmp/x.txt] still
    shows ["hi\n"]. *)
Theorem echo_append_misses_the_file now :
  let s1 := (runTermCmd echo_hi (first_visit now)).1 in
  let s2 := (runTermCmd echo_bye s1).1 in
  (runTermCmd echo_hi (first_visit now)).2 = InnerText "" ∧
  (runTermCmd "cat /tmp/x.txt" s1).2 = InnerText ("hi" +:+ nl) ∧
  (runTermCmd echo_bye s1).2 = InnerText "" ∧
  (runTermCmd "cat /tmp/x.txt" s2).2 = InnerText ("hi" +:+ nl) ∧
  fs s2 !! "/tmp/x.txt" = Some (File ("hi" +:+ nl) now) ∧
  fs s2 !! "/home/user/" = Some (File ("bye" +:+ nl) now).
Proof. split_and!; reflexivity. Qed.

Lemma touch_error_unchanged path s s' r :
  touch path s = (s', r) → is_error r = true → s' = s.
Proof.
  intros Hrun Herr.
  destruct (touch_spec _ _ _ _ Hrun) as [(-> & _)|[(-> & _)|[_ ->]]]; done.
Qed.

Lemma writeFile_error_unchanged path content append s s' r :
  JS.startsWith (resolvePath s path) "/" = true →
  writeFile path content append s = (s', r) → is_error r = true → s' = s.
Proof.
  intros Habs Hrun Herr. unfold writeFile in Hrun.
  set (p := resolvePath s path) in *.
  destruct (negb (exists_ s p)) eqn:Hex; cycle 1.
  { simpl in Hrun. destruct (negb (isFile s p)); by simplify_eq. }
  destruct (touch p s) as [s1 r1] eqn:Htouch.
  destruct (is_error r1) eqn:Herr1.
  { simplify_eq. by eapply touch_error_unchanged. }
  destruct (touch_spec _ _ _ _ Htouch)
    as [(_ & _ & ->)|[(_ & Hnew & _ & _ & cs & Hcs & Hfs)|[? _]]]; [| |congruence].
  - destruct (negb (isFile s p)); by simplify_eq.
  - rewrite (resolvePath_absolute s p Habs) in Hnew, Hcs, Hfs.
    assert (isFile s1 p = true) as Hfile.
    { apply isFile_true. rewrite Hfs.
      rewrite lookup_insert_ne, lookup_insert_eq by congruence. eauto. }
    rewrite Hfile in Hrun. simpl in Hrun. by simplify_eq.
Qed.

Lemma cp_error_unchanged src dest s s' r :
  JS.startsWith (currentDir s) "/" = true →
  cp src dest s = (s', r) → is_error r = true → s' = s.
Proof.
  intros Hcwd Hrun Herr. unfold cp in Hrun.
  destruct (negb _); [by simplify_eq|].
  destruct (isDir _ _); [by simplify_eq|].
  destruct (readFile _ _); simplify_eq; try done.
  eapply writeFile_error_unchanged; [|done..].
  by apply resolvePath_rooted.
Qed.

(** C4.  Whatever the paths [a] and [b] and the tree, in a session whose
    current directory is absolute: where [copy(a, b)] succeeds, [move(a, b)]
    is [remove(a, false)] run after it, with its tree and its result; where
    [copy(a, b)] fails, [move(a, b)] returns that error and the state,
    the entry at [a] with it, is what it was. *)
Theorem mv_is_cp_then_rm a b s s1 r :
  JS.startsWith (currentDir s) "/" = true →
  cp a b s = (s1, r) →
  (is_error r = false → mv a b s = rm a false s1) ∧
  (is_error r = true → mv a b s = (s, Returned r) ∧ s1 = s).
Proof.
  intros Hcwd Hcp. unfold mv. rewrite Hcp. split; intros Herr; rewrite Herr; [done|].
  by rewrite (cp_error_unchanged _ _ _ _ _ Hcwd Hcp Herr).
Qed.

(** C5.  A path expression that starts with ['/'] is resolved to itself,
    ['.'] and ['..'] segments and a trailing ['/'] included; and what
    [resolve] answers for any expression depends on the current directory
    alone, not on the tree.  [resolvePath] is a total function. *)
Theorem resolve_absolute_unchanged (path cwd : string)
    (t t' : gmap string entry) (item item' : option string) (now now' : N) :
  JS.startsWith path "/" = true →
  resolvePath (mkState t cwd item now) path = path ∧
  ∀ q, resolvePath (mkState t cwd item now) q = resolvePath (mkState t' cwd item' now') q.
Proof.
  intros Habs. split; [by apply resolvePath_absolute|].
  intros q. by apply resolvePath_cwd.
Qed.

(** C6.  [resolve('..')] is the current directory split into segments,
    the last one dropped, the rest joined after a ['/'], and ['/'] when
    none remains; from [/home/user] the command [cd ..] leads to [/home],
    then to [/], then stays at [/]. *)
Theorem cd_dotdot_goes_up now :
  (∀ s, resolvePath s ".." = up_one_level (currentDir s)) ∧
  let s1 := (runTermCmd "cd .." (first_visit now)).1 in
  let s2 := (runTermCmd "cd .." s1).1 in
  let s3 := (runTermCmd "cd .." s2).1 in
  currentDir (first_visit now) = "/home/user" ∧
  currentDir s1 = "/home" ∧ currentDir s2 = "/" ∧ currentDir s3 = "/".
Proof.
  split; [|split_and!; reflexivity].
  intros s. unfold resolvePath, up_one_level, segments, JS.filter_truthy, JS.pop, JS.join.
  simpl. by destruct (removelast _).
Qed.

(** C7.  [touch] on a path that exists returns success and changes
    nothing; so once [touch] has created a file and [writeFile] has written
    it, a second [touch] leaves the content as written. *)
Theorem touch_idempotent path s :
  (exists_ s (resolvePath s path) = true → touch path s = (s, Success)) ∧
  (∀ content append s1,
     exists_ s (resolvePath s path) = false →
     touch path s = (s1, Success) →
     ∃ s2, writeFile path content append s1 = (s2, Success) ∧
           touch path s2 = (s2, Success) ∧
           readFile path s2 = Content content).
Proof.
  split.
  { intros Hex. unfold touch. by rewrite Hex. }
  intros content append s1 Hex Htouch.
  destruct (touch_spec _ _ _ _ Htouch)
    as [(_ & Hsome & _)|[(_ & Hnew & Hcwd & _ & cs & Hcs & Hfs)|[? _]]]; [| |done].
  { apply exists_false in Hex. rewrite Hex in Hsome. by destruct Hsome. }
  set (p := resolvePath s path) in *.
  assert (resolvePath s1 path = p) as Hp1 by (by apply resolvePath_cwd).
  assert (fs s1 !! p = Some (File "" (clock s))) as Hfile.
  { rewrite Hfs. rewrite lookup_insert_ne, lookup_insert_eq by congruence. done. }
  assert (exists_ s1 p = true) as Hex1 by (apply exists_true; eauto).
  assert (isFile s1 p = true) as Hisfile by (apply isFile_true; eauto).
  set (s2 := saveFS (with_fs (set_content p content append) s1)).
  assert (resolvePath s2 path = p) as Hp2 by (by rewrite <- Hp1).
  assert (fs s2 !! p = Some (File content (clock s))) as Hfile2.
  { simpl. unfold set_content. rewrite Hfile, lookup_insert_eq.
    by destruct append. }
  assert (exists_ s2 p = true) as Hex2 by (apply exists_true; eauto).
  exists s2. split_and!.
  - unfold writeFile. rewrite Hp1, Hex1. simpl. by rewrite Hisfile.
  - unfold touch. by rewrite Hp2, Hex2.
  - unfold readFile. by rewrite Hp2, Hex2, Hfile2, or_else_empty.
Qed.

End Claims.

Section MoreClaims.
Context `{Platform}.
Implicit Types s : State.

(** C8.  Under the contract of the platform, serializing the tree as
    [saveFS] does and loading it again, as a new session does, gives the same
    mapping: the same keys, every directory with the same children in the
    same order, every file with the same content.  This holds of every
    state; and in every state a session reaches through methods that return,
    the stored snapshot already is that serialization. *)
Theorem snapshot_round_trip (contract : PlatformContract) s now :
  json_to_tree (loadFS (storage (saveFS s))) = Some (fs s) ∧
  fs <$> constructor (storage (saveFS s)) now = Some (fs s) ∧
  (reachable s → in_sync s ∧ fs <$> constructor (storage s) now = Some (fs s)).
Proof.
  assert (∀ s', in_sync s' →
            json_to_tree (loadFS (storage s')) = Some (fs s') ∧
            fs <$> constructor (storage s') now = Some (fs s')) as Hreload.
  { intros s' Hsync. unfold in_sync in Hsync. unfold constructor, initial_fs.
    rewrite Hsync, loadFS_saved, tree_truthy, tree_round_trip. done. }
  destruct (Hreload (saveFS s) (saveFS_in_sync s)) as [Hload Hnew].
  split; [done|]. split; [done|].
  intros Hs. pose proof (reachable_in_sync s Hs) as Hsync.
  split; [done|]. by apply Hreload.
Qed.

(** C9, as amended.  Where the snapshot is missing or [JSON.parse] rejects
    it, the constructor throws nothing and starts from the default layout,
    which has nine entries: the root, [/home], [/home/user], its three empty
    subdirectories, and the empty directories [/etc], [/var] and [/tmp]. *)
Theorem load_failure_falls_back item now :
  item = None ∨ (∃ data, item = Some data ∧ JSON_parse data = None) →
  ∃ s, constructor item now = Some s ∧
       currentDir s = "/home/user" ∧
       ∀ p e, fs s !! p = Some e ↔ (p, e) ∈ default_entries_list.
Proof.
  intros Hitem. eexists. split; [by apply constructor_fallback|].
  split; [done|]. intros p e. apply default_entries.
Qed.

(** C10.  Moving an existing file onto itself returns success and
    destroys it: [cp] rewrites the file with its own content, [rm] then
    deletes it and takes its name out of the children of its parent. *)
Theorem self_move_destroys_file a b p content created cs s :
  resolvePath s a = p → resolvePath s b = p →
  JS.startsWith p "/" = true →
  fs s !! p = Some (File content created) →
  fs s !! parent_of p = Some (Dir cs) →
  ∃ s', mv a b s = (s', Returned Success) ∧
        fs s' !! p = None ∧
        fs s' !! parent_of p = Some (Dir (JS.splice_out (name_of p) cs)) ∧
        (NoDup cs → name_of p ∉ JS.splice_out (name_of p) cs).
Proof.
  intros Ha Hb Habs Hfile Hparent.
  assert (parent_of p ≠ p) as Hne by congruence.
  assert (exists_ s p = true) as Hex by (apply exists_true; eauto).
  assert (isDir s p = false) as Hdir.
  { apply not_true_iff_false. intros [? ?]%isDir_true. congruence. }
  assert (isFile s p = true) as Hisfile by (apply isFile_true; eauto).
  set (s1 := saveFS (with_fs (set_content p content false) s)).
  assert (cp a b s = (s1, Success)) as Hcp.
  { unfold cp, readFile, writeFile. rewrite Ha, Hb.
    rewrite !(resolvePath_absolute s p Habs), Hex, Hdir, Hfile. simpl.
    by rewrite or_else_empty, Hisfile. }
  assert (fs s1 = <[p := File content created]> (fs s)) as Hfs1.
  { simpl. unfold set_content. by rewrite Hfile. }
  assert (resolvePath s1 a = p) as Ha1 by (by rewrite <- Ha).
  eexists. unfold mv. rewrite Hcp. simpl is_error. cbv iota.
  destruct (rm_unfold a false s1) as [fuel ->]. unfold rm_body. rewrite Ha1.
  assert (exists_ s1 p = true) as ->.
  { apply exists_true. rewrite Hfs1, lookup_insert_eq. eauto. }
  assert (isDir s1 p = false) as ->.
  { apply not_true_iff_false. intros [? Hd]%isDir_true.
    rewrite Hfs1, lookup_insert_eq in Hd. done. }
  simpl. rewrite lookup_delete_ne by done.
  unfold set_content. rewrite Hfile, lookup_insert_ne, Hparent by done.
  simpl. split; [done|]. rewrite fs_saveFS, !fs_with_fs. split_and!.
  - by rewrite lookup_insert_ne, lookup_delete_eq.
  - by rewrite lookup_insert_eq.
  - apply splice_out_gone.
Qed.

End MoreClaims.

(** ** The reference platform meets the contract *)

Lemma digits_pos_cons a rest :
  rest ≠ "" →
  digits_pos (String a rest) =
    if decide (a = "0"%char) then xO <$> digits_pos rest
    else if decide (a = "1"%char) then xI <$> digits_pos rest
    else None.
Proof. by destruct rest. Qed.

Lemma digits_round_trip (p : positive) : digits_pos (pos_digits p) = Some p.
Proof.
  assert (∀ q, pos_digits q ≠ "") as Hne by (by intros []).
  induction p as [p IH|p IH|]; [| |done]; simpl pos_digits;
    rewrite digits_pos_cons, IH by done; done.
Qed.

Lemma reference_stringify (t : gmap string entry) :
  JSON_stringify (Platform := reference_platform) (tree_to_json t) = pos_digits (encode t).
Proof.
  unfold JSON_stringify, reference_platform. by rewrite tree_round_trip.
Qed.

Lemma reference_contract : PlatformContract (H := reference_platform).
Proof.
  split.
  - intros t. rewrite reference_stringify.
    unfold JSON_parse, reference_platform.
    rewrite digits_round_trip. simpl. by rewrite decode_encode.
  - intros t. rewrite reference_stringify. by destruct (encode t).
  - done.
Qed.

(** ** Where [rm] throws *)

Section RootRemoval.
Context `{Platform}.

(** On a tree that meets the invariants [rm] throws at the root only. *)
Lemma rm_throws_only_at_root path recursive s :
  TreeInv (fs s) → (rm path recursive s).2 = TypeError → resolvePath s path = "/".
Proof.
  intros Ht Hthrow. destruct (rm path recursive s) as [s' c] eqn:Hrun.
  simpl in Hthrow. subst c. by destruct (rm_is_ok _ _ _ _ _ Hrun Ht) as [_ ?].
Qed.

(** And there, asked to recurse, it always does. *)
Lemma rm_root_always_throws s :
  TreeInv (fs s) → (rm "/" true s).2 = TypeError.
Proof.
  intros Ht. pose proof (rm_finishes "/" true s) as Hfin.
  destruct (rm_unfold "/" true s) as [fuel Hrm]. rewrite Hrm in *. clear Hrm.
  unfold rm_body in *. rewrite (resolvePath_absolute s "/" eq_refl) in *.
  destruct (inv_root _ Ht) as [cs Hroot].
  assert (exists_ s "/" = true) as Hex by (apply exists_true; eauto).
  assert (isDir s "/" = true) as Hdir by (apply isDir_true; eauto).
  rewrite Hex, Hdir, Hroot in *. simpl in *.
  destruct (rm_children (rm_fuel fuel) "/" cs s) as [s1 a] eqn:Hloop.
  destruct (rm_children_ok (rm_fuel fuel) "/" cs s s1 a (rm_fuel_ok fuel) eq_refl Hloop Ht)
    as [_ Ha].
  destruct a as [[]|]; try done.
  by rewrite parent_of_root, lookup_delete_eq.
Qed.

End RootRemoval.

(** ** The string methods on examples *)

Example split_gt : JS.split ">" "a >> b" = ["a "; ""; " b"].
Proof. reflexivity. Qed.

Example split_ws_ex : JS.split_ws (JS.trim "  cd   ..  ") = ["cd"; ".."].
Proof. reflexivity. Qed.

Example strip_ex : JS.strip_quotes (dq +:+ "hi" +:+ dq) = "hi".
Proof. reflexivity. Qed.

Example lastIndexOf_ex :
  JS.lastIndexOf "/home/user" "/" = 5 ∧ JS.lastIndexOf "abc" "/" = -1.
Proof. split; reflexivity. Qed.

Example substring_ex :
  JS.substring "/home/user" 0 5 = "/home" ∧ JS.substring "abc" 0 (-1) = "".
Proof. split; reflexivity. Qed.

Example parent_name_ex :
  parent_of "/home/user/" = "/home/user" ∧ name_of "/home/user/" = "" ∧
  parent_of "//tmp" = "/" ∧ name_of "//tmp" = "tmp" ∧ parent_of "/tmp" = "/".
Proof. split_and!; reflexivity. Qed.

(** ** Concrete runs *)

(** C2 as first stated fails: [mkdir('//tmp')] succeeds on the default
    layout, which meets invariants 1 to 4, and pushes a second ['tmp'] onto
    the children of the root. *)
Lemma mkdir_double_slash_repeats_a_name :
  spec_invariants s0 ∧
  (mkdir (H := reference_platform) "//tmp" s0).2 = Success ∧
  fs (mkdir (H := reference_platform) "//tmp" s0).1 !! "/"
    = Some (Dir ["home"; "etc"; "var"; "tmp"; "tmp"]) ∧
  ¬ spec_invariants (mkdir (H := reference_platform) "//tmp" s0).1.
Proof.
  split_and!.
  - apply spec_invariants_of_inv, default_fs_inv.
  - reflexivity.
  - reflexivity.
  - intros (_ & _ & Huniq & _).
    assert (¬ NoDup ["home"; "etc"; "var"; "tmp"; "tmp"]) as Hdup by compute_done.
    apply Hdup. by apply (Huniq "/").
Qed.

Lemma mutation_preserves_invariants_witness :
  spec_invariants (mkdir (H := reference_platform) "/tmp/x" s0).1.
Proof.
  refine (proj2 (mutation_preserves_invariants (H := reference_platform)
                   (Mkdir "/tmp/x") s0 _ _ _ _)).
  - apply default_fs_inv.
  - repeat constructor.
  - reflexivity.
Defined.

Lemma mv_is_cp_then_rm_witness :
  mv (H := reference_platform) "/tmp" "/x" s0
    = (s0, Returned (Error "cp: omitting directory (use -r for recursive)")) ∧ s0 = s0.
Proof.
  exact (proj2 (mv_is_cp_then_rm (H := reference_platform) "/tmp" "/x" s0 s0
                  (Error "cp: omitting directory (use -r for recursive)")
                  eq_refl eq_refl) eq_refl).
Defined.

Lemma resolve_absolute_unchanged_witness :
  resolvePath (mkState ∅ "/home/user" None 0) "/a/../b" = "/a/../b".
Proof.
  exact (proj1 (resolve_absolute_unchanged "/a/../b" "/home/user" ∅ ∅ None None 0 0 eq_refl)).
Defined.

Lemma touch_idempotent_witness :
  ∃ s2, writeFile (H := reference_platform) "notes.txt" "abc" false
          (touch (H := reference_platform) "notes.txt" s0).1 = (s2, Success) ∧
        touch (H := reference_platform) "notes.txt" s2 = (s2, Success) ∧
        readFile "notes.txt" s2 = Content "abc".
Proof.
  apply (proj2 (touch_idempotent (H := reference_platform) "notes.txt" s0) "abc" false);
    reflexivity.
Defined.

Lemma snapshot_round_trip_witness :
  fs <$> constructor (H := reference_platform) (storage s0) 1 = Some default_fs.
Proof.
  refine (proj2 (proj2 (proj2 (snapshot_round_trip (H := reference_platform)
                                 reference_contract s0 1)) _)).
  apply (reach_new None 0). apply constructor_fallback. by left.
Defined.

(** C9 as first stated fails: the tree a first visit starts from has [/tmp],
    which is none of the six paths. *)
Lemma default_layout_has_more_than_six :
  ∃ s, constructor (H := reference_platform) None 0 = Some s ∧
       ¬ (∀ p, is_Some (fs s !! p) ↔ p ∈ six_paths).
Proof.
  exists s0. split; [apply constructor_fallback; by left|].
  intros Hsix. assert ("/tmp" ∉ six_paths) as Hout by compute_done.
  apply Hout, Hsix. by eexists.
Qed.

Lemma load_failure_falls_back_witness :
  ∃ s, constructor (H := reference_platform) (Some "{") 0 = Some s ∧
       currentDir s = "/home/user" ∧
       ∀ p e, fs s !! p = Some e ↔ (p, e) ∈ default_entries_list.
Proof.
  exact (load_failure_falls_back (H := reference_platform) (Some "{") 0
           (or_intror (ex_intro _ "{" (conj eq_refl eq_refl)))).
Defined.

Lemma self_move_destroys_file_witness :
  ∃ s', mv (H := reference_platform) "/tmp/f" "/tmp/f"
          (touch (H := reference_platform) "/tmp/f" s0).1 = (s', Returned Success) ∧
        fs s' !! "/tmp/f" = None ∧
        fs s' !! "/tmp" = Some (Dir []) ∧
        (NoDup ["f"] → "f" ∉ @nil string).
Proof.
  apply (self_move_destroys_file (H := reference_platform)
           "/tmp/f" "/tmp/f" "/tmp/f" "" 0 ["f"]); reflexivity.
Defined.

(** * Further properties of the store, the shell and the explorer *)

(** ** What every method keeps *)

Section Steps.
Context `{Platform}.
Context (R : State → State → Prop) (HR : step_closed R).
Implicit Types s : State.

Lemma related_fs s1 s2 f : R s1 s2 → R s1 (with_fs f s2).
Proof. intros H12. exact (step_trans R HR _ _ _ H12 (step_fs R HR f s2)). Qed.

Lemma related_save s1 s2 : R s1 s2 → R s1 (saveFS s2).
Proof. intros H12. exact (step_trans R HR _ _ _ H12 (step_save R HR s2)). Qed.

Lemma related_trans s1 s2 s3 : R s1 s2 → R s2 s3 → R s1 s3.
Proof. apply HR. Qed.

Lemma mkdir_related path s : R s (mkdir path s).1.
Proof.
  unfold mkdir. destruct (exists_ s _); [apply HR|].
  destruct (negb (isDir s _)); simpl; [apply HR|].
  apply related_save, related_fs, related_fs, HR.
Qed.

Lemma touch_related path s : R s (touch path s).1.
Proof.
  unfold touch. destruct (exists_ s _); [apply HR|].
  destruct (negb (isDir s _)); simpl; [apply HR|].
  apply related_save, related_fs, related_fs, HR.
Qed.

Lemma writeFile_related path content append s : R s (writeFile path content append s).1.
Proof.
  unfold writeFile.
  assert (R s (if negb (exists_ s (resolvePath s path))
               then touch (resolvePath s path) s else (s, Success)).1) as Hfirst.
  { destruct (negb (exists_ s _)); [apply touch_related|apply HR]. }
  destruct (if negb (exists_ s _) then _ else _) as [s1 r1]. simpl in Hfirst.
  destruct (is_error r1); [done|].
  destruct (negb (isFile s1 _)); simpl; [done|].
  by apply related_save, related_fs.
Qed.

Lemma cp_related src dest s : R s (cp src dest s).1.
Proof.
  unfold cp. destruct (negb (exists_ s _)); [apply HR|].
  destruct (isDir s _); [apply HR|].
  destruct (readFile _ s); try apply HR. apply writeFile_related.
Qed.

Lemma rm_children_related f p children s :
  (∀ q r s, R s (f q r s).1) → R s (rm_children f p children s).1.
Proof.
  intros Hf. revert s. induction children as [|c rest IH]; intros s; simpl; [apply HR|].
  pose proof (Hf (p +:+ "/" +:+ c) true s) as Hcall.
  destruct (f (p +:+ "/" +:+ c) true s) as [s1 [res| |]]; simpl in *; [|done..].
  eapply related_trans; [done|apply IH].
Qed.

Lemma rm_body_related f :
  (∀ q r s, R s (f q r s).1) → ∀ q r s, R s (rm_body f q r s).1.
Proof.
  intros Hf q r s. unfold rm_body. set (p := resolvePath s q).
  destruct (negb (exists_ s p)); [apply HR|].
  destruct (isDir s p && negb r); [apply HR|].
  assert (R s (if isDir s p && r
               then rm_children f p match fs s !! p with
                                    | Some (Dir children) => children
                                    | _ => []
                                    end s
               else (s, None)).1) as Hloop.
  { destruct (isDir s p && r); [by apply rm_children_related|apply HR]. }
  destruct (if isDir s p && r then _ else _) as [s1 [c|]]; simpl in Hloop; [done|].
  assert (R s (with_fs (delete p) s1)) as Hdel by (by apply related_fs).
  destruct (fs (with_fs (delete p) s1) !! parent_of p) as [[children|]|]; simpl; [|done..].
  by apply related_save, related_fs.
Qed.

Lemma rm_fuel_related fuel : ∀ q r s, R s (rm_fuel fuel q r s).1.
Proof.
  induction fuel as [|fuel IH]; [intros; apply HR|]. by apply rm_body_related.
Qed.

Lemma rm_related path recursive s : R s (rm path recursive s).1.
Proof. apply rm_fuel_related. Qed.

Lemma mv_related src dest s : R s (mv src dest s).1.
Proof.
  unfold mv. pose proof (cp_related src dest s) as Hcp.
  destruct (cp src dest s) as [s1 r]. simpl in Hcp.
  destruct (is_error r); [done|].
  eapply related_trans; [done|apply rm_related].
Qed.

Lemma apply_related m s : R s (apply m s).1.
Proof.
  destruct m; simpl.
  - pose proof (mkdir_related path s). by destruct (mkdir path s).
  - pose proof (touch_related path s). by destruct (touch path s).
  - pose proof (writeFile_related path content append s).
    by destruct (writeFile path content append s).
  - apply rm_related.
  - pose proof (cp_related src dest s). by destruct (cp src dest s).
  - apply mv_related.
Qed.

End Steps.

Section Kept.
Context `{Platform}.
Implicit Types s : State.

Lemma same_place_closed :
  step_closed (λ s s', currentDir s' = currentDir s ∧ clock s' = clock s).
Proof. split; try done. intros s1 s2 s3 [? ?] [? ?]. split; congruence. Qed.

Lemma same_snapshot_closed :
  (∀ text, setItem_fits text = false) →
  step_closed (λ s s', storage s' = storage s).
Proof.
  intros Hfull. split; try done.
  - intros s1 s2 s3 ? ?. congruence.
  - intros s. unfold saveFS. simpl. by rewrite Hfull.
Qed.

Lemma apply_same_place m s : currentDir (apply m s).1 = currentDir s.
Proof. apply (apply_related _ same_place_closed). Qed.

Lemma with_currentDir_back d s : with_currentDir (currentDir s) (with_currentDir d s) = s.
Proof. by destruct s. Qed.

End Kept.

(** ** The session's directory and the snapshot *)

Section SessionFacts.
Context `{Platform}.
Implicit Types s : State.

Lemma cd_rooted path s :
  JS.startsWith (currentDir s) "/" = true →
  JS.startsWith (currentDir (cd path s).1) "/" = true.
Proof.
  intros Hcwd. unfold cd.
  destruct (negb (exists_ s _)); [done|].
  destruct (negb (isDir s _)); [done|]. simpl. by apply resolvePath_rooted.
Qed.

(** X1.  In every state a session reaches the current directory is an absolute
    path: the constructor sets [/home/user], [cd] sets what [resolvePath]
    answered, and no other method assigns it. *)
Theorem reachable_cwd_absolute s :
  reachable s → JS.startsWith (currentDir s) "/" = true.
Proof.
  induction 1 as [item now s Hnew|s m s' r _ IH Hrun|s path s' r _ IH Hrun|s now _ IH].
  - unfold constructor in Hnew. destruct (json_to_tree _); by simplify_eq/=.
  - pose proof (apply_same_place m s) as Hsame. rewrite Hrun in Hsame. simpl in Hsame.
    by rewrite Hsame.
  - pose proof (cd_rooted path s IH) as Hcd. by rewrite Hrun in Hcd.
  - done.
Qed.

(** X2.  Where [localStorage] refuses every write, no operation changes the
    stored snapshot, however it ends: [saveFS] swallows the failure and the
    change to the tree in memory is not undone. *)
Theorem full_storage_keeps_snapshot m s :
  (∀ text, setItem_fits text = false) → storage (apply m s).1 = storage s.
Proof.
  intros Hfull. apply (apply_related _ (same_snapshot_closed Hfull)).
Qed.

End SessionFacts.

(** ** The shell *)

Section Shell.
Context `{Platform}.
Implicit Types s : State.

Lemma openFileEditor_same_place a s :
  currentDir (openFileEditor a s) = currentDir s.
Proof.
  unfold openFileEditor. destruct (readFile _ s); try done.
  apply (touch_related _ same_place_closed).
Qed.

Lemma writeFile_same_place path content append s :
  currentDir (writeFile path content append s).1 = currentDir s.
Proof. apply (writeFile_related _ same_place_closed). Qed.

Local Ltac shell_cases :=
  repeat match goal with
         | |- context [match ?x with _ => _ end] =>
             lazymatch x with
             | decide _ => fail
             | _ => destruct x eqn:?
             end
         end; simpl; try done;
  repeat match goal with
         | Heq : _ = (?s', _) |- _ =>
             apply (f_equal fst) in Heq; simpl in Heq; subst s'
         end; try done.

(** X3.  A command other than [cd] leaves the current directory where it was. *)
Theorem shell_moves_only_by_cd cmd s :
  command_of cmd ≠ "cd" → currentDir (runTermCmd cmd s).1 = currentDir s.
Proof.
  intros Hcmd. unfold runTermCmd, echo.
  fold (command_of cmd) (args_of cmd).
  set (command := command_of cmd) in *. set (args := args_of cmd).
  pose proof (λ a, proj1 (mkdir_related _ same_place_closed a s)) as Hmkdir.
  pose proof (λ a, proj1 (touch_related _ same_place_closed a s)) as Htouch.
  pose proof (λ a r, proj1 (rm_related _ same_place_closed a r s)) as Hrm.
  pose proof (λ a b, proj1 (cp_related _ same_place_closed a b s)) as Hcp.
  pose proof (λ a b, proj1 (mv_related _ same_place_closed a b s)) as Hmv.
  pose proof (λ a c b, proj1 (writeFile_related _ same_place_closed a c b s)) as Hwrite.
  pose proof (λ a, openFileEditor_same_place a s) as Hedit.
  simpl in *.
  repeat (case_decide; [shell_cases|]); shell_cases.
Qed.

(** X4.  A command that is none of [cd], [mkdir], [touch], [rm], [cp], [mv],
    [nano], [vim], [vi] and [echo] changes nothing: not the tree, not the
    current directory, not the stored snapshot. *)
Theorem shell_reads_leave_state cmd s :
  command_of cmd ∉ writing_commands → (runTermCmd cmd s).1 = s.
Proof.
  intros Hcmd. unfold writing_commands in Hcmd.
  repeat (apply not_elem_of_cons in Hcmd as [? Hcmd]).
  unfold runTermCmd. fold (command_of cmd) (args_of cmd).
  set (command := command_of cmd) in *. set (args := args_of cmd).
  repeat (case_decide; [try (destruct_or!; congruence); shell_cases|]); shell_cases.
Qed.

(** X5.  [rm] followed by flags only ([rm -r], [rm -rf -r]) gets past the test
    for a missing operand and throws: [args.find] answers [undefined] and
    [resolvePath(undefined)] calls [startsWith] on it.  The state is as it
    was. *)
Theorem rm_without_operand_aborts cmd s :
  command_of cmd = "rm" →
  arg0 (args_of cmd) ≠ None →
  JS.find_operand (args_of cmd) = None →
  runTermCmd cmd s = (s, Aborted TypeError).
Proof.
  intros Hcmd Harg Hfind. unfold runTermCmd.
  fold (command_of cmd) (args_of cmd). rewrite Hcmd, Hfind.
  repeat (case_decide; [destruct_or?; done|]).
  by destruct (arg0 (args_of cmd)).
Qed.

Lemma double_slash_no_key s i : keys_rooted (fs s) → fs s !! ("/" +:+ "/" +:+ i) = None.
Proof.
  intros Hkeys. apply eq_None_not_Some. intros Hsome.
  destruct (Hkeys _ Hsome) as [_ Hone].
  - intros Heq. apply (f_equal String.length) in Heq.
    rewrite !Str.length_app in Heq. simpl in Heq. lia.
  - change ("/" +:+ "/" +:+ i) with ("//" +:+ i) in Hone.
    by rewrite Str.startsWith_app in Hone.
Qed.

Lemma ls_long_line_root s i :
  keys_rooted (fs s) →
  ls_long_line "/" s i = "-rw-r--r-- 1 user user 0 Jan 1 00:00 " +:+ i.
Proof.
  intros Hkeys. unfold ls_long_line.
  rewrite resolvePath_absolute by (apply (Str.startsWith_app "/")).
  assert (isDir s ("/" +:+ "/" +:+ i) = false) as ->; [|done].
  apply not_true_iff_false. intros [cs Hcs]%isDir_true.
  by rewrite double_slash_no_key in Hcs.
Qed.

(** X6.  [ls -l /] draws every entry of the root as a plain file, the
    directories too, on every tree none of whose keys starts with two
    slashes: the line of the entry [i] asks [isDir] about ['/' + '/' + i]. *)
Theorem ls_long_root_draws_files cmd s children :
  keys_rooted (fs s) →
  fs s !! "/" = Some (Dir children) →
  command_of cmd = "ls" →
  JS.find_operand (args_of cmd) = Some "/" →
  JS.arr_includes (args_of cmd) "-l" = true →
  let showAll := JS.arr_includes (args_of cmd) "-a" || JS.arr_includes (args_of cmd) "-la"
                 || JS.arr_includes (args_of cmd) "-al" in
  let shown := if showAll then children
               else filter (λ i, negb (JS.startsWith i ".")) children in
  runTermCmd cmd s =
    (s, InnerText (JS.or_else
                     (JS.join nl ((λ i, "-rw-r--r-- 1 user user 0 Jan 1 00:00 " +:+ i) <$> shown))
                     "total 0")).
Proof.
  intros Hkeys Hroot Hcmd Hpath Hlong showAll shown. unfold runTermCmd.
  fold (command_of cmd) (args_of cmd). rewrite Hcmd, Hpath, Hlong.
  rewrite (decide_False (P := "ls" = "help")) by done.
  rewrite decide_False by (by intros [?|?]).
  rewrite decide_True by (by left).
  change (JS.or_else (default "" (Some "/")) ".") with "/". fold showAll.
  unfold ls. rewrite (resolvePath_absolute s "/" eq_refl).
  assert (exists_ s "/" = true) as -> by (apply exists_true; eauto).
  rewrite Hroot. simpl.
  assert ((if negb showAll
           then filter (λ i, negb (JS.startsWith i ".")) children else children) = shown)
    as -> by (unfold shown; by destruct showAll).
  do 4 f_equal. apply list_fmap_ext. intros _ i _. by apply ls_long_line_root.
Qed.

End Shell.

(** ** The file explorer *)

Section ExplorerFacts.
Context `{Platform}.
Implicit Types s : State.

(** X7.  On a tree that meets the invariants, every item the explorer draws for
    a directory leads to an entry of the tree, the one whose parent is that
    directory and whose name is the item's, and is drawn as a directory
    exactly when that entry is one; at the root too, where the path of an
    item is ['/' + name]. *)
Theorem explorer_items_are_entries path s p up items :
  TreeInv (fs s) →
  isDir s (resolvePath s path) = true →
  renderFileExplorer path s = ExplorerGrid p up items →
  p = resolvePath s path ∧
  ∀ name target dir, (name, target, dir) ∈ items →
    is_Some (fs s !! target) ∧ parent_of target = p ∧ name_of target = name ∧
    dir = isDir s target.
Proof.
  intros Ht Hdir Hview. unfold renderFileExplorer, ls in Hview.
  set (q := resolvePath s path) in *.
  apply isDir_true in Hdir as [cs Hcs].
  assert (is_Some (fs s !! q)) as Hsome by eauto.
  rewrite (resolvePath_absolute s q (lookup_absolute _ _ Ht Hsome)) in Hview.
  assert (exists_ s q = true) as Hex by (by apply exists_true).
  rewrite Hex, Hcs in Hview. simpl in Hview. simplify_eq. split; [done|].
  intros name target dir (i & Heq & Hi)%list_elem_of_fmap. simplify_eq.
  apply list_elem_of_filter in Hi as [_ Hi].
  destruct (inv_child _ Ht _ _ _ Hcs Hi) as (k & Hk & Hk_root & Hk_par & Hk_name).
  destruct (single_rooted_split k) as [Hk_split _]; [by apply (inv_rooted _ Ht)|done|].
  rewrite Hk_par, Hk_name in Hk_split. unfold child_path in Hk_split.
  rewrite <- Hk_split. done.
Qed.

Lemma with_currentDir_saveFS d s :
  with_currentDir d (saveFS s) = saveFS (with_currentDir d s).
Proof. done. Qed.

(** X8.  The explorer writes through the directory its window shows without
    moving the session: [explorerMkdir] is [mkdir] of the path the name
    resolves to from that directory, [explorerUpload] is [writeFile] of it,
    and [navigateExplorer] changes nothing at all, as the shell's current
    directory is put back. *)
Theorem explorer_keeps_session dir name content s :
  JS.startsWith dir "/" = true →
  let target := resolvePath (with_currentDir dir s) name in
  (name ≠ "" → explorerMkdir dir (Some name) s = (mkdir target s).1) ∧
  explorerUpload dir name content s = (writeFile target content false s).1 ∧
  (navigateExplorer dir name s).1 = s.
Proof.
  intros Hdir target.
  assert (JS.startsWith target "/" = true) as Htarget
    by (by apply resolvePath_rooted).
  assert (∀ s0, resolvePath s0 target = target) as Hres
    by (intros; by apply resolvePath_absolute).
  split_and!.
  - intros Hname. unfold explorerMkdir. destruct name as [|a name]; [done|].
    unfold mkdir. fold target. rewrite Hres.
    change (exists_ (with_currentDir dir s) target) with (exists_ s target).
    change (isDir (with_currentDir dir s) (parent_of target))
      with (isDir s (parent_of target)).
    destruct (exists_ s target); [by destruct s|].
    destruct (negb (isDir s (parent_of target))); by destruct s.
  - unfold explorerUpload, writeFile. fold target. rewrite Hres.
    change (exists_ (with_currentDir dir s) target) with (exists_ s target).
    unfold touch. rewrite !Hres.
    change (exists_ (with_currentDir dir s) target) with (exists_ s target).
    change (isDir (with_currentDir dir s) (parent_of target))
      with (isDir s (parent_of target)).
    destruct (exists_ s target) eqn:Hex; simpl.
    + change (isFile (with_currentDir dir s) target) with (isFile s target).
      destruct (isFile s target); by destruct s.
    + destruct (isDir s (parent_of target)) eqn:Hpar; simpl; [|by destruct s].
      match goal with
      | |- context [isFile ?a target] =>
          match goal with
          | |- context [isFile ?b target] =>
              lazymatch a with
              | b => fail
              | _ => change (isFile a target) with (isFile b target)
              end
          end
      end.
      destruct (isFile _ target); by destruct s.
  - unfold navigateExplorer. simpl. by destruct s.
Qed.

(** X9.  The name [explorerDownload] saves under is never empty and holds no
    ['/']: it is what follows the last ['/'] of the address, or
    ['downloaded_file'] where nothing follows. *)
Theorem download_name_is_a_name url :
  download_name url ≠ "" ∧ JS.last_index "/" (download_name url) = None.
Proof.
  unfold download_name. fold (name_of url).
  assert (JS.last_index "/" (name_of url) = None) as Hname.
  { destruct (JS.last_index "/" url) as [i|] eqn:Hurl.
    - destruct (last_index_split _ _ _ Hurl) as (a & b & -> & Hb).
      by rewrite (proj2 (split_last_slash a b Hb)).
    - by rewrite (proj2 (split_no_slash url Hurl)). }
  destruct (name_of url); [done|]. simpl. done.
Qed.

End ExplorerFacts.

(** ** The prompt, the address bar, the calculator *)

Section Widgets.
Implicit Types s : State.

Lemma replace_first_head pattern replacement (text : string) :
  JS.startsWith text pattern = true →
  replace_first pattern replacement text
    = replacement +:+ string_drop (String.length pattern) text.
Proof.
  intros Hhead. destruct text as [|a text].
  - change (replace_first pattern replacement "")
      with (if JS.startsWith "" pattern
            then replacement +:+ string_drop (String.length pattern) "" else "").
    by rewrite Hhead.
  - change (replace_first pattern replacement (String a text))
      with (if JS.startsWith (String a text) pattern
            then replacement +:+ string_drop (String.length pattern) (String a text)
            else String a (replace_first pattern replacement text)).
    by rewrite Hhead.
Qed.

Lemma string_drop_app (p rest : string) : string_drop (String.length p) (p +:+ rest) = rest.
Proof. induction p as [|a p IH]; [done|]. by rewrite Str.app_cons. Qed.

(** X10.  Inside the home directory the prompt shows [~] for [/home/user], and
    what it shows resolves back to the current directory when that is
    [/home/user] itself or lies below it.  (For a sibling such as
    [/home/username] the prompt reads [~name], which does not.) *)
Theorem prompt_round_trip s rest :
  currentDir s = "/home/user" +:+ rest →
  promptDir s = "~" +:+ rest ∧
  (rest = "" ∨ JS.startsWith rest "/" = true →
   resolvePath s (promptDir s) = currentDir s).
Proof.
  intros Hcwd.
  assert (promptDir s = "~" +:+ rest) as Hprompt.
  { unfold promptDir, pwd. rewrite Hcwd.
    rewrite replace_first_head by apply Str.startsWith_app.
    by rewrite (string_drop_app "/home/user" rest). }
  split; [done|]. rewrite Hprompt, Hcwd. intros [->|[t ->]%Str.startsWith_inv].
  - done.
  - unfold resolvePath.
    change (JS.startsWith ("~" +:+ "/" +:+ t) "/") with false.
    change ("~" +:+ "/" +:+ t) with ("~/" +:+ t).
    rewrite (Str.startsWith_app "~/" t).
    rewrite decide_False; [done|].
    intros Heq. apply (f_equal String.length) in Heq.
    rewrite !Str.length_app in Heq. simpl in Heq. lia.
Qed.

(** X11.  From a display that reads [0], the keys other than [=] never change
    what the calculator shows: [C] and [del] put [0] back, and a digit or an
    operator is not handled by any branch. *)
Theorem calculator_stays_at_zero (eval_shown : string → option string) (keys : list string) :
  "=" ∉ keys → foldl (λ display key, calcIn eval_shown key display) "0" keys = "0".
Proof.
  induction keys as [|key keys IH]; [done|].
  intros [Hkey Hkeys]%not_elem_of_cons. simpl.
  assert (calcIn eval_shown key "0" = "0") as ->; [|by apply IH].
  unfold calcIn. rewrite (decide_True (P := "0" = "0" ∨ "0" = "Error")) by (by left).
  repeat case_decide; done.
Qed.

(** X12.  Whatever is typed into the address bar, the frame is sent to the
    proxy with an address that starts with [http]; a text that already does
    is kept as typed, trimmed.  Nothing happens on a blank text. *)
Theorem browserGo_goes_through_proxy (encodeURIComponent : string → string) value :
  match browserGo encodeURIComponent value with
  | None => JS.trim value = ""
  | Some (url, src) =>
      JS.trim value ≠ "" ∧
      JS.startsWith url "http" = true ∧
      (JS.startsWith (JS.trim value) "http" = true → url = JS.trim value) ∧
      src = "https://api.allorigins.win/raw?url=" +:+ encodeURIComponent url
  end.
Proof.
  unfold browserGo. case_decide; [done|].
  destruct (JS.startsWith (JS.trim value) "http") eqn:Hhttp; simpl; [done|].
  destruct (JS.includes _ "." && negb (JS.includes _ " ")); by split_and!.
Qed.

End Widgets.

(** ** More on [rm] *)

Section RemoveFacts.
Context `{Platform}.
Implicit Types s : State.

(** X13.  The recursion of [rm] always comes to an end, whatever the tree, even
    one that breaks the invariants: [rm] returns a result or throws. *)
Theorem rm_returns_or_throws path recursive s :
  (∃ r, (rm path recursive s).2 = Returned r) ∨ (rm path recursive s).2 = TypeError.
Proof.
  pose proof (rm_finishes path recursive s) as Hends.
  destruct (rm path recursive s).2; eauto. done.
Qed.

(** At the root the loop over the children removes nothing: it asks for
    the keys ['//name']. *)
Lemma rm_children_root_idle fuel children s :
  keys_rooted (fs s) →
  rm_children (rm_fuel fuel) "/" children s = (s, None) ∨
  (rm_children (rm_fuel fuel) "/" children s).2 = Some Unfinished.
Proof.
  intros Hkeys. induction children as [|c rest IH]; simpl; [by left|].
  destruct fuel as [|fuel]; [by right|].
  change (rm_fuel (S fuel)) with (rm_body (rm_fuel fuel)) in *.
  unfold rm_body at 1 3.
  rewrite resolvePath_absolute by (apply (Str.startsWith_app "/")).
  assert (exists_ s ("/" +:+ "/" +:+ c) = false) as ->
    by (by apply exists_false, double_slash_no_key).
  simpl. apply IH.
Qed.

Lemma rm_root_exact path s :
  TreeInv (fs s) → resolvePath s path = "/" →
  rm path true s = (with_fs (delete "/") s, TypeError).
Proof.
  intros Ht Hroot. pose proof (rm_finishes path true s) as Hends.
  destruct (rm_unfold path true s) as [fuel Hrm]. rewrite Hrm in *. clear Hrm.
  unfold rm_body in *. rewrite Hroot in *.
  destruct (inv_root _ Ht) as [cs Hcs].
  assert (exists_ s "/" = true) as Hex by (apply exists_true; eauto).
  assert (isDir s "/" = true) as Hdir by (apply isDir_true; eauto).
  rewrite Hex, Hdir, Hcs in *. simpl in *.
  destruct (rm_children_root_idle fuel cs s (inv_rooted _ Ht)) as [Hidle|Hcut].
  - rewrite Hidle in *. by rewrite parent_of_root, lookup_delete_eq.
  - destruct (rm_children (rm_fuel fuel) "/" cs s) as [s1 a]. simpl in Hcut.
    by subst a.
Qed.

(** X14.  On a tree that meets the invariants [rm] throws in one case only: asked
    to remove the root with its content.  Everywhere else it returns. *)
Theorem rm_throws_iff_root path recursive s :
  TreeInv (fs s) →
  (rm path recursive s).2 = TypeError ↔ resolvePath s path = "/" ∧ recursive = true.
Proof.
  intros Ht. split.
  - intros Hthrow. destruct (rm path recursive s) as [s' c] eqn:Hrun.
    simpl in Hthrow. subst c.
    destruct (rm_is_ok _ _ _ _ _ Hrun Ht) as [_ Hroot]. split; [done|].
    destruct recursive; [done|]. exfalso.
    destruct (rm_unfold path false s) as [fuel Hrm]. rewrite Hrm in Hrun.
    unfold rm_body in Hrun. rewrite Hroot in Hrun.
    destruct (inv_root _ Ht) as [cs Hcs].
    assert (exists_ s "/" = true) as Hex by (apply exists_true; eauto).
    assert (isDir s "/" = true) as Hdir by (apply isDir_true; eauto).
    rewrite Hex, Hdir in Hrun. simpl in Hrun. by simplify_eq.
  - intros [Hroot ->]. by rewrite rm_root_exact.
Qed.

Lemma reload_in_sync `{!PlatformContract} s now :
  in_sync s → fs <$> constructor (storage s) now = Some (fs s).
Proof.
  intros Hsync. unfold in_sync in Hsync. unfold constructor, initial_fs.
  rewrite Hsync, loadFS_saved, tree_truthy, tree_round_trip. done.
Qed.

(** X15.  The [rm -r /] that throws has deleted the root from the tree in memory
    and saved nothing: the snapshot still holds the tree as it was, and the
    next session starts from that. *)
Theorem failed_rm_is_not_saved (contract : PlatformContract) path s now :
  TreeInv (fs s) → in_sync s → resolvePath s path = "/" →
  fs (rm path true s).1 = delete "/" (fs s) ∧
  storage (rm path true s).1 = storage s ∧
  fs <$> constructor (storage (rm path true s).1) now = Some (fs s).
Proof.
  intros Ht Hsync Hroot. rewrite (rm_root_exact path s Ht Hroot). simpl.
  split_and!; [done..|]. by apply reload_in_sync.
Qed.

(** X16.  [rm] does not look at the current directory: removing the directory the
    session is in succeeds and leaves [currentDir] naming an entry that is
    gone, so that [ls] and [cd .] fail until a [cd] to an existing one. *)
Theorem rm_of_current_directory path s s' showHidden :
  TreeInv (fs s) →
  resolvePath s path = currentDir s →
  rm path true s = (s', Returned Success) →
  currentDir s' = currentDir s ∧
  exists_ s' (currentDir s') = false ∧
  ls "." showHidden s' = Error "ls: cannot access: No such file or directory" ∧
  cd "." s' = (s', Error "cd: no such file or directory").
Proof.
  intros Ht Hcwd Hrun.
  destruct (rm_is_ok _ _ _ _ _ Hrun Ht) as [Hsame (_ & _ & _ & Hgone)].
  rewrite Hcwd, <- Hsame in Hgone. specialize (Hgone eq_refl).
  apply exists_false in Hgone.
  split_and!; [done..| |].
  - unfold ls. change (resolvePath s' ".") with (currentDir s'). by rewrite Hgone.
  - unfold cd. change (resolvePath s' ".") with (currentDir s'). by rewrite Hgone.
Qed.

End RemoveFacts.

(** ** The subtree [rm] removes *)

Section Subtree.
Context `{Platform}.
Implicit Types s : State.

Lemma app_prefix (p a x y : string) :
  p +:+ x = a +:+ y → (String.length p ≤ String.length a)%nat →
  JS.startsWith a p = true.
Proof.
  revert a. induction p as [|c p IH]; intros a Heq Hlen; [by destruct a|].
  destruct a as [|d a]; [simpl in Hlen; lia|].
  rewrite !Str.app_cons in Heq. injection Heq as -> Heq.
  simpl. rewrite decide_True by done. apply IH; [done|]. simpl in Hlen. lia.
Qed.

Lemma app_same_length (p a x y : string) :
  p +:+ x = a +:+ y → String.length p = String.length a → p = a.
Proof.
  revert a. induction p as [|c p IH]; intros a Heq Hlen; [by destruct a|].
  destruct a as [|d a]; [done|].
  rewrite !Str.app_cons in Heq. injection Heq as -> Heq.
  f_equal. apply IH; [done|]. simpl in Hlen. lia.
Qed.

Lemma startsWith_shorter (k p x : string) :
  JS.startsWith k (p +:+ x) = true → JS.startsWith k p = true.
Proof.
  intros [t ->]%Str.startsWith_inv. rewrite Str.app_assoc. apply Str.startsWith_app.
Qed.

Lemma startsWith_self (p : string) : JS.startsWith p p = true.
Proof. rewrite <- (Str.app_nil_r p) at 1. apply Str.startsWith_app. Qed.

Lemma last_index_at_least c (p t : string) i :
  JS.last_index c (p +:+ String c "" +:+ t) = Some i → (String.length p ≤ i)%nat.
Proof.
  revert i. induction p as [|x p IH]; intros i Hi; [simpl; lia|].
  rewrite Str.app_cons in Hi. simpl in Hi.
  destruct (JS.last_index c (p +:+ String c "" +:+ t)) as [j|] eqn:Hj.
  - simplify_eq. specialize (IH j eq_refl). simpl. lia.
  - by destruct (has_slash c p t).
Qed.

(** The parent of a path below [p] is [p] or lies below [p]. *)
Lemma parent_under (p t : string) :
  p ≠ "" →
  parent_of (p +:+ "/" +:+ t) = p ∨
  JS.startsWith (parent_of (p +:+ "/" +:+ t)) (p +:+ "/") = true.
Proof.
  intros Hp.
  destruct (JS.last_index "/" (p +:+ "/" +:+ t)) as [i|] eqn:Hi;
    [|by destruct (has_slash "/" p t)].
  pose proof (last_index_at_least _ _ _ _ Hi) as Hlen.
  destruct (last_index_split _ _ _ Hi) as (a & b & Heq & Hb).
  rewrite Heq in Hi. rewrite (last_index_app _ a b Hb) in Hi. simplify_eq.
  rewrite Heq. rewrite (proj1 (split_last_slash a b Hb)).
  destruct (decide (String.length p = String.length a)) as [Hsame|Hlonger].
  - left. rewrite <- (app_same_length _ _ _ _ Heq Hsame). by destruct p.
  - right. assert (a ≠ "") as Ha by (intros ->; simpl in *; lia).
    assert (JS.or_else a "/" = a) as -> by (by destruct a).
    rewrite <- Str.app_assoc in Heq.
    apply (app_prefix _ _ _ _ Heq). rewrite Str.length_app. simpl. lia.
Qed.

Lemma rm_children_frame f p children s k :
  rm_frame f →
  (∀ q r s, currentDir (f q r s).1 = currentDir s) →
  JS.startsWith (currentDir s) "/" = true →
  JS.startsWith p "/" = true →
  k ≠ p → JS.startsWith k (p +:+ "/") = false →
  fs (rm_children f p children s).1 !! k = fs s !! k.
Proof.
  intros Hf Hsame Hcwd Hp Hk Hbelow. revert s Hcwd.
  induction children as [|c rest IH]; intros s Hcwd; simpl; [done|].
  assert (p ≠ "") as Hp_ne by (by intros ->).
  pose proof (Hf (p +:+ "/" +:+ c) true s k Hcwd) as Hcall.
  rewrite resolvePath_absolute in Hcall by (by apply child_absolute).
  assert (fs (f (p +:+ "/" +:+ c) true s).1 !! k = fs s !! k) as Hkeep.
  { apply Hcall.
    - intros ->. rewrite <- Str.app_assoc, Str.startsWith_app in Hbelow. done.
    - apply not_true_iff_false. intros Hdeep. apply not_true_iff_false in Hbelow.
      apply Hbelow. rewrite <- Str.app_assoc, Str.app_assoc in Hdeep.
      by eapply startsWith_shorter.
    - intros ->. destruct (parent_under p c Hp_ne) as [Hpar|Hpar].
      + by rewrite Hpar in Hk.
      + by rewrite Hpar in Hbelow. }
  pose proof (Hsame (p +:+ "/" +:+ c) true s) as Hcwd1.
  destruct (f (p +:+ "/" +:+ c) true s) as [s1 [res| |]]; simpl in *; [|done..].
  rewrite IH by (by rewrite Hcwd1). done.
Qed.

Lemma rm_fuel_same_place fuel q r s : currentDir (rm_fuel fuel q r s).1 = currentDir s.
Proof. apply (rm_fuel_related _ same_place_closed). Qed.

Lemma rm_body_frame f :
  rm_frame f → (∀ q r s, currentDir (f q r s).1 = currentDir s) →
  rm_frame (rm_body f).
Proof.
  intros Hf Hsame q r s k Hcwd Hk Hbelow Hpar. unfold rm_body.
  set (p := resolvePath s q) in *.
  assert (JS.startsWith p "/" = true) as Hp by (by apply resolvePath_rooted).
  destruct (negb (exists_ s p)); [done|].
  destruct (isDir s p && negb r); [done|].
  assert (fs (if isDir s p && r
              then rm_children f p match fs s !! p with
                                   | Some (Dir children) => children
                                   | _ => []
                                   end s
              else (s, None)).1 !! k = fs s !! k) as Hloop.
  { destruct (isDir s p && r); [by apply rm_children_frame|done]. }
  destruct (if isDir s p && r then _ else _) as [s1 [c|]]; simpl in Hloop; [done|].
  destruct (fs (with_fs (delete p) s1) !! parent_of p) as [[children|]|]; simpl.
  - by rewrite lookup_insert_ne, lookup_delete_ne.
  - by rewrite lookup_delete_ne.
  - by rewrite lookup_delete_ne.
Qed.

Lemma rm_fuel_frame fuel : rm_frame (rm_fuel fuel).
Proof.
  induction fuel as [|fuel IH]; [by intros q r s k|].
  apply rm_body_frame; [done|]. apply rm_fuel_same_place.
Qed.

(** X17.  [rm] touches its target, what lies below it, and the children of its
    parent; every other entry of the tree is after the call what it was
    before, however the call ends. *)
Theorem rm_touches_only_the_subtree path recursive s k :
  JS.startsWith (currentDir s) "/" = true →
  k ≠ resolvePath s path →
  JS.startsWith k (resolvePath s path +:+ "/") = false →
  k ≠ parent_of (resolvePath s path) →
  fs (rm path recursive s).1 !! k = fs s !! k.
Proof. apply rm_fuel_frame. Qed.

(** X18.  After a recursive [rm] that succeeds on a tree meeting the invariants
    nothing is left of the subtree: neither the target nor any key below
    it. *)
Theorem rm_recursive_clears_subtree path s s' k :
  TreeInv (fs s) →
  rm path true s = (s', Returned Success) →
  k = resolvePath s path ∨ JS.startsWith k (resolvePath s path +:+ "/") = true →
  fs s' !! k = None.
Proof.
  intros Ht Hrun Hk. set (p := resolvePath s path) in *.
  destruct (rm_is_ok _ _ _ _ _ Hrun Ht) as [_ (Ht' & _ & _ & Hgone)].
  specialize (Hgone eq_refl). fold p in Hgone.
  destruct Hk as [->|Hbelow]; [done|].
  assert (p ≠ "") as Hp.
  { intros Hp. destruct (rm_unfold path true s) as [fuel Hrm]. rewrite Hrm in Hrun.
    unfold rm_body in Hrun. fold p in Hrun.
    destruct (exists_ s p) eqn:Hex; simpl in Hrun; [|by simplify_eq].
    apply exists_true in Hex. pose proof (lookup_absolute _ _ Ht Hex) as Habs.
    by rewrite Hp in Habs. }
  remember (String.length k) as n eqn:Hn.
  revert k Hbelow Hn. induction (lt_wf n) as [n _ IH]. intros k Hbelow ->.
  apply eq_None_not_Some. intros Hsome.
  apply Str.startsWith_inv in Hbelow as Hshape. destruct Hshape as [t Hshape].
  rewrite Str.app_assoc in Hshape.
  assert (k ≠ "/") as Hk_root.
  { intros ->. apply (f_equal String.length) in Hshape.
    rewrite !Str.length_app in Hshape. simpl in Hshape.
    destruct p; [done|]. simpl in Hshape. lia. }
  destruct (inv_parent _ Ht' k Hsome Hk_root) as (cs & Hcs & _).
  destruct (single_rooted_split k) as [_ Hshorter]; [by apply (inv_rooted _ Ht')|done|].
  destruct (parent_under p t Hp) as [Hpar|Hpar]; rewrite <- Hshape in Hpar.
  - rewrite Hpar, Hgone in Hcs. done.
  - rewrite (IH _ Hshorter _ Hpar eq_refl) in Hcs. done.
Qed.

End Subtree.

(** ** Writing, reading, copying and moving *)

Section Files.
Context `{Platform}.
Implicit Types s : State.

Lemma parent_absolute p : JS.startsWith p "/" = true → JS.startsWith (parent_of p) "/" = true.
Proof.
  intros Hp. destruct (path_cases p) as [(_ & -> & _)|(a & b & -> & -> & _)]; [done|].
  destruct a as [|x a]; [done|]. rewrite Str.app_cons in Hp. simpl in *.
  destruct (decide (x = "/"%char)); [by destruct a|done].
Qed.

(** What a call of [writeFile] that does not fail does to the tree: the
    content of the file that was there is replaced or extended, or a file is
    created under the parent, stamped with the clock, and then written. *)
Lemma writeFile_spec path content append s s' r :
  JS.startsWith (currentDir s) "/" = true →
  writeFile path content append s = (s', r) →
  let p := resolvePath s path in
  (is_error r = true ∧ s' = s) ∨
  (r = Success ∧ currentDir s' = currentDir s ∧
   ((∃ old n, fs s !! p = Some (File old n) ∧
              fs s' = <[p := File (if append then old +:+ content else content) n]> (fs s)) ∨
    (fs s !! p = None ∧ p ≠ parent_of p ∧
     ∃ cs, fs s !! parent_of p = Some (Dir cs) ∧
           fs s' = <[p := File content (clock s)]>
                     (<[parent_of p := Dir (cs ++ [name_of p])]> (fs s))))).
Proof.
  intros Hcwd Hrun p.
  assert (JS.startsWith p "/" = true) as Habs by (by apply resolvePath_rooted).
  destruct (is_error r) eqn:Herr.
  { left. split; [done|]. by eapply writeFile_error_unchanged. }
  right. unfold writeFile in Hrun. fold p in Hrun.
  destruct (exists_ s p) eqn:Hex; simpl in Hrun.
  - destruct (isFile s p) eqn:Hfile; simpl in Hrun; [|by simplify_eq].
    apply isFile_true in Hfile as (old & n & Hold). simplify_eq.
    split_and!; [done..|]. left. exists old, n. split; [done|].
    simpl. unfold set_content. by rewrite Hold.
  - apply exists_false in Hex. destruct (touch p s) as [s1 r1] eqn:Htouch.
    destruct (touch_spec _ _ _ _ Htouch)
      as [(_ & Hsome & _)|[(-> & _ & Hcwd1 & _ & cs & Hcs & Hfs)|[Herr1 ->]]].
    + rewrite (resolvePath_absolute s p Habs), Hex in Hsome. by destruct Hsome.
    + rewrite (resolvePath_absolute s p Habs) in Hcs, Hfs.
      assert (p ≠ parent_of p) as Hne by congruence.
      assert (fs s1 !! p = Some (File "" (clock s))) as Hfile
        by (by rewrite Hfs, lookup_insert_ne, lookup_insert_eq).
      assert (isFile s1 p = true) as Hisfile by (apply isFile_true; eauto).
      rewrite Hisfile in Hrun. simpl in Hrun. simplify_eq. split_and!; [done..|].
      right. split_and!; [done..|]. exists cs. split; [done|].
      simpl. unfold set_content. rewrite Hfile, Hfs.
      apply map_eq. intros k. rewrite !lookup_insert.
      destruct append; repeat case_decide; subst; congruence || done.
    + rewrite Herr1 in Hrun. simplify_eq. congruence.
Qed.

(** X19.  A write that succeeds is read back: the text written, after what the
    file held before when the write appends; every other file keeps its
    content. *)
Theorem writeFile_then_readFile path content append s s' :
  JS.startsWith (currentDir s) "/" = true →
  writeFile path content append s = (s', Success) →
  readFile path s' =
    Content ((if append then match readFile path s with
                             | Content old => old
                             | _ => ""
                             end
              else "") +:+ content) ∧
  ∀ q, resolvePath s q ≠ resolvePath s path → isFile s (resolvePath s q) = true →
       readFile q s' = readFile q s.
Proof.
  intros Hcwd Hrun.
  destruct (writeFile_spec _ _ _ _ _ _ Hcwd Hrun) as [[? _]|(_ & Hsame & Hfs)]; [done|].
  assert (∀ q, resolvePath s' q = resolvePath s q) as Hres
    by (intros q; by apply resolvePath_cwd).
  set (p := resolvePath s path) in *.
  split.
  - unfold readFile. rewrite !Hres. fold p.
    destruct Hfs as [(old & n & Hold & Hfs)|(Hnew & Hne & cs & Hcs & Hfs)].
    + assert (exists_ s p = true) as -> by (apply exists_true; eauto).
      assert (exists_ s' p = true) as ->
        by (apply exists_true; rewrite Hfs, lookup_insert_eq; eauto).
      simpl. rewrite Hfs, lookup_insert_eq, Hold, !or_else_empty.
      by destruct append.
    + assert (exists_ s p = false) as -> by (by apply exists_false).
      assert (exists_ s' p = true) as ->
        by (apply exists_true; rewrite Hfs, lookup_insert_eq; eauto).
      simpl. rewrite Hfs, lookup_insert_eq, or_else_empty.
      by destruct append.
  - intros q Hq [c [n Hc]]%isFile_true. unfold readFile. rewrite Hres.
    assert (fs s' !! resolvePath s q = fs s !! resolvePath s q) as Hkeep.
    { destruct Hfs as [(old & n' & Hold & ->)|(Hnew & Hne & cs & Hcs & ->)].
      - by rewrite lookup_insert_ne.
      - rewrite lookup_insert_ne by done. rewrite lookup_insert_ne by congruence. done. }
    unfold exists_. by rewrite Hkeep.
Qed.

Lemma readFile_result path s :
  (∃ msg, readFile path s = Error msg) ∨ (∃ content, readFile path s = Content content).
Proof.
  unfold readFile. destruct (negb _); [eauto|].
  destruct (fs s !! _) as [[?|? ?]|]; eauto.
Qed.

Lemma writeFile_result path content append s s' r :
  writeFile path content append s = (s', r) → is_error r = false → r = Success.
Proof.
  unfold writeFile. intros Hrun Herr.
  destruct (if negb _ then _ else _) as [s2 r2].
  destruct (is_error r2) eqn:Herr2; [simplify_eq; congruence|].
  destruct (negb (isFile s2 _)); by simplify_eq.
Qed.

Lemma cp_result src dest s s' r :
  cp src dest s = (s', r) → is_error r = false → r = Success.
Proof.
  unfold cp. intros Hrun Herr.
  destruct (negb (exists_ s _)); [by simplify_eq|].
  destruct (isDir s _); [by simplify_eq|].
  destruct (readFile_result (resolvePath s src) s) as [[msg Hread]|[c Hread]];
    rewrite Hread in Hrun; [by simplify_eq|].
  by eapply writeFile_result.
Qed.

Lemma cp_content src dest s s' :
  JS.startsWith (currentDir s) "/" = true →
  cp src dest s = (s', Success) →
  ∃ content, readFile src s = Content content ∧
             readFile dest s' = Content content ∧
             readFile src s' = Content content.
Proof.
  intros Hcwd Hrun. unfold cp in Hrun.
  set (a := resolvePath s src) in *. set (b := resolvePath s dest) in *.
  assert (JS.startsWith a "/" = true) as Ha by (by apply resolvePath_rooted).
  assert (JS.startsWith b "/" = true) as Hb by (by apply resolvePath_rooted).
  destruct (exists_ s a) eqn:Hex; simpl in Hrun; [|by simplify_eq].
  destruct (isDir s a) eqn:Hdir; [by simplify_eq|].
  assert (∃ content n, fs s !! a = Some (File content n)) as (content & n & Hfile).
  { apply exists_true in Hex as [[cs|c n] Hentry]; [|eauto].
    assert (isDir s a = true) by (apply isDir_true; eauto). congruence. }
  assert (readFile src s = Content content) as Hsrc.
  { unfold readFile. fold a. by rewrite Hex, Hfile, or_else_empty. }
  assert (readFile a s = Content content) as Hread.
  { unfold readFile. by rewrite (resolvePath_absolute s a Ha), Hex, Hfile, or_else_empty. }
  rewrite Hread in Hrun.
  exists content. split; [done|].
  destruct (writeFile_spec _ _ _ _ _ _ Hcwd Hrun) as [[? _]|(_ & Hsame & Hfs)]; [done|].
  rewrite (resolvePath_absolute s b Hb) in Hfs.
  assert (∀ q, resolvePath s' q = resolvePath s q) as Hres
    by (intros q; by apply resolvePath_cwd).
  assert (fs s' !! b = Some (File content (match fs s !! b with
                                           | Some (File _ m) => m
                                           | _ => clock s
                                           end))) as Hdest.
  { destruct Hfs as [(old & m & Hold & ->)|(Hnew & Hne & cs & Hcs & ->)].
    - by rewrite lookup_insert_eq, Hold.
    - by rewrite lookup_insert_eq, Hnew. }
  assert (∃ m, fs s' !! a = Some (File content m)) as [m Hsource].
  { destruct (decide (a = b)) as [->|Hab]; [eauto|].
    destruct Hfs as [(old & m & Hold & ->)|(Hnew & Hne & cs & Hcs & ->)].
    - rewrite lookup_insert_ne by done. eauto.
    - rewrite lookup_insert_ne by done. rewrite lookup_insert_ne by congruence. eauto. }
  unfold readFile. rewrite !Hres. fold a b. unfold exists_.
  rewrite Hdest, Hsource. rewrite !bool_decide_eq_true_2 by eauto.
  simpl. by rewrite or_else_empty.
Qed.

(** X20.  A copy that succeeds leaves at the destination the content of the
    source, and the source as it was. *)
Theorem cp_copies_content src dest s s' :
  JS.startsWith (currentDir s) "/" = true →
  cp src dest s = (s', Success) →
  ∃ content, readFile src s = Content content ∧
             readFile dest s' = Content content ∧
             readFile src s' = Content content.
Proof. apply cp_content. Qed.

(** X21.  A move between two different paths that succeeds leaves the content
    of the source at the destination and nothing at the source. *)
Theorem mv_moves_file src dest s s' :
  JS.startsWith (currentDir s) "/" = true →
  resolvePath s src ≠ resolvePath s dest →
  mv src dest s = (s', Returned Success) →
  ∃ content, readFile src s = Content content ∧
             readFile dest s' = Content content ∧
             readFile src s' = Error "cat: No such file or directory".
Proof.
  intros Hcwd Hne Hrun. unfold mv in Hrun.
  destruct (cp src dest s) as [s1 r1] eqn:Hcp.
  destruct (is_error r1) eqn:Herr; [by destruct r1; simplify_eq|].
  assert (currentDir s1 = currentDir s) as Hcwd1
    by (pose proof (cp_related _ same_place_closed src dest s) as Hrel;
        rewrite Hcp in Hrel; apply Hrel).
  assert (∀ q, resolvePath s1 q = resolvePath s q) as Hres1
    by (intros q; by apply resolvePath_cwd).
  assert (currentDir s' = currentDir s1) as Hcwd2
    by (pose proof (rm_related _ same_place_closed src false s1) as Hrel;
        rewrite Hrun in Hrel; apply Hrel).
  assert (∀ q, resolvePath s' q = resolvePath s q) as Hres2
    by (intros q; rewrite <- Hres1; by apply resolvePath_cwd).
  set (a := resolvePath s src) in *. set (b := resolvePath s dest) in *.
  assert (r1 = Success) as -> by (by eapply cp_result).
  destruct (cp_content src dest s s1 Hcwd Hcp) as (content & Hsrc & Hdest & Hsrc1).
  exists content. split; [done|].
  destruct (rm_unfold src false s1) as [fuel Hrm]. rewrite Hrm in Hrun.
  unfold rm_body in Hrun. rewrite Hres1 in Hrun. fold a in Hrun.
  unfold readFile in Hsrc1, Hdest. rewrite Hres1 in Hsrc1, Hdest. fold a b in Hsrc1, Hdest.
  destruct (exists_ s1 a) eqn:Hex; simpl in Hsrc1; [|done].
  destruct (exists_ s1 b) eqn:Hexb; simpl in Hdest; [|done].
  destruct (fs s1 !! a) as [[?|ca na]|] eqn:Ha; simplify_eq.
  destruct (fs s1 !! b) as [[?|cb nb]|] eqn:Hb; simplify_eq.
  assert (isDir s1 a = false) as Hnodir by (unfold isDir; by rewrite Ha, andb_false_r).
  rewrite Hnodir in Hrun. simpl in Hrun.
  destruct (delete a (fs s1) !! parent_of a) as [[children|]|] eqn:Hparent;
    simplify_eq.
  assert (parent_of a ≠ a) as Hpa by (intros Heq; by rewrite Heq, lookup_delete_eq in Hparent).
  assert (parent_of a ≠ b) as Hpb.
  { intros Heq. rewrite Heq, lookup_delete_ne in Hparent by done. congruence. }
  unfold readFile. rewrite !Hres2. fold a b. unfold exists_. simpl.
  rewrite !lookup_insert_ne by done. rewrite lookup_delete_eq, lookup_delete_ne by done.
  rewrite Hb. rewrite bool_decide_eq_true_2 by eauto.
  rewrite bool_decide_eq_false_2 by (by intros [? ?]). simpl. by rewrite Hdest.
Qed.

End Files.

(** ** A new directory *)

Section NewDirectory.
Context `{Platform}.
Implicit Types s : State.

(** X22.  A directory that [mkdir] has created is there and empty, its name is
    the last child of its parent, [cd] goes into it, and a second [mkdir]
    of the same path fails and changes nothing. *)
Theorem mkdir_then_ls path s s' :
  JS.startsWith (currentDir s) "/" = true →
  mkdir path s = (s', Success) →
  let p := resolvePath s path in
  (∀ hidden, ls path hidden s' = Items []) ∧
  (∃ old, ls (parent_of p) true s = Items old ∧
          ls (parent_of p) true s' = Items (old ++ [name_of p])) ∧
  cd path s' = (with_currentDir p s', SuccessAt p) ∧
  mkdir path s' = (s', Error "mkdir: cannot create directory: File exists").
Proof.
  intros Hcwd Hrun p.
  destruct (mkdir_spec _ _ _ _ Hrun) as [(_ & Hnew & Hsame & cs & Hcs & Hfs)|[? _]]; [|done].
  fold p in Hnew, Hcs, Hfs.
  assert (∀ q, resolvePath s' q = resolvePath s q) as Hres
    by (intros q; by apply resolvePath_cwd).
  assert (parent_of p ≠ p) as Hne by congruence.
  assert (fs s' !! p = Some (Dir [])) as Hdir
    by (by rewrite Hfs, lookup_insert_ne, lookup_insert_eq).
  assert (exists_ s' p = true) as Hex by (apply exists_true; eauto).
  assert (resolvePath s (parent_of p) = parent_of p) as Hpar.
  { apply resolvePath_absolute, parent_absolute. by apply resolvePath_rooted. }
  split_and!.
  - intros hidden. unfold ls. rewrite Hres. fold p. rewrite Hex, Hdir. simpl.
    by destruct hidden.
  - exists cs. unfold ls. rewrite Hres, Hpar. unfold exists_.
    rewrite Hcs, Hfs, lookup_insert_eq. by rewrite !bool_decide_eq_true_2 by eauto.
  - unfold cd. rewrite Hres. fold p. rewrite Hex. unfold isDir. by rewrite Hex, Hdir.
  - unfold mkdir. rewrite Hres. fold p. by rewrite Hex.
Qed.

End NewDirectory.

(** ** Sessions on plain paths *)

Section PlainSessions.
Context `{Platform}.
Implicit Types s : State.








End PlainSessions.

(** ** [..] and the parent of a path *)

Section DotDot.
Context `{Platform}.
Implicit Types s : State.

Lemma split_clean c (seg : string) :
  JS.last_index c seg = None → JS.split c seg = [seg].
Proof.
  induction seg as [|a seg IH]; [done|]. simpl.
  destruct (JS.last_index c seg); [done|].
  destruct (decide (a = c)); [done|]. intros _. by rewrite IH.
Qed.

Lemma split_app_clean c (seg rest : string) :
  JS.last_index c seg = None →
  JS.split c (seg +:+ String c rest) = seg :: JS.split c rest.
Proof.
  induction seg as [|a seg IH].
  - intros _. rewrite Str.app_nil_l. simpl. by rewrite decide_True.
  - simpl. destruct (JS.last_index c seg); [done|].
    destruct (decide (a = c)) as [|Hac]; [done|]. intros _.
    by rewrite IH.
Qed.

Lemma concat_cons (sep x : string) (l : list string) :
  l ≠ [] → String.concat sep (x :: l) = x +:+ sep +:+ String.concat sep l.
Proof. by destruct l. Qed.

Lemma concat_snoc (sep last : string) (init : list string) :
  init ≠ [] →
  String.concat sep (init ++ [last]) = String.concat sep init +:+ sep +:+ last.
Proof.
  induction init as [|x [|y init] IH]; intros Hne; [done|done|].
  change ((x :: y :: init) ++ [last]) with (x :: ((y :: init) ++ [last])).
  rewrite (concat_cons sep x ((y :: init) ++ [last])) by done.
  rewrite IH by done. rewrite (concat_cons sep x (y :: init)) by done.
  by rewrite !Str.app_assoc.
Qed.

Lemma split_concat (segs : list string) :
  Forall clean_segment segs → segs ≠ [] →
  JS.split "/" (String.concat "/" segs) = segs.
Proof.
  induction 1 as [|x segs [_ Hx] Hsegs IH]; intros Hne; [done|].
  destruct segs as [|y segs]; [by apply split_clean|].
  rewrite concat_cons by done.
  change (x +:+ "/" +:+ String.concat "/" (y :: segs))
    with (x +:+ String "/" (String.concat "/" (y :: segs))).
  rewrite split_app_clean by done. by rewrite IH.
Qed.

Lemma filter_clean (segs : list string) :
  Forall clean_segment segs → JS.filter_truthy segs = segs.
Proof.
  unfold JS.filter_truthy. induction 1 as [|x segs [Hx _] _ IH]; [done|].
  rewrite filter_cons_True by done. by rewrite IH.
Qed.

(** X25.  Where the current directory is written canonically, as ['/'] or as
    segments without ['/'] each after one ['/'], [..] resolves to the path
    the tree has as its parent: the directory [mkdir] and [rm] update for
    it. *)
Theorem dotdot_is_parent s (segs : list string) :
  Forall clean_segment segs →
  currentDir s = "/" +:+ JS.join "/" segs →
  resolvePath s ".." = parent_of (currentDir s).
Proof.
  intros Hsegs Hcwd. unfold resolvePath. simpl. rewrite Hcwd. unfold JS.join.
  destruct (decide (segs = [])) as [->|Hne]; [done|].
  change (JS.split "/" ("/" +:+ String.concat "/" segs))
    with ("" :: JS.split "/" (String.concat "/" segs)).
  rewrite split_concat by done.
  unfold JS.filter_truthy. rewrite filter_cons_False by (by intros ?).
  fold (JS.filter_truthy segs). rewrite filter_clean by done. unfold JS.pop.
  destruct (exists_last Hne) as (init & last & ->).
  rewrite removelast_last.
  apply Forall_app in Hsegs as [_ Hlast]. inversion Hlast as [|? ? [_ Hclean] _]; subst.
  destruct init as [|x init].
  - change ("/" +:+ String.concat "/" ([] ++ [last])) with ("" +:+ "/" +:+ last).
    by rewrite (proj1 (split_last_slash "" last Hclean)).
  - rewrite concat_snoc by done. rewrite <- Str.app_assoc.
    rewrite (proj1 (split_last_slash _ last Hclean)). done.
Qed.

End DotDot.

(** ** Undoing [mkdir], and the editor *)

Section Undo.
Context `{Platform}.
Implicit Types s : State.

Lemma splice_out_snoc x (l : list string) : x ∉ l → JS.splice_out x (l ++ [x]) = l.
Proof.
  induction l as [|y l IH]; intros Hx; simpl.
  - by rewrite decide_True.
  - apply not_elem_of_cons in Hx as [Hxy Hx].
    rewrite decide_False by done. by rewrite IH.
Qed.

(** X23.  On a tree that meets the invariants [rm -r] undoes [mkdir]: the tree
    is again what it was before the directory was made, the order of the
    children of its parent included.  Without [-r] the directory stays. *)
Theorem mkdir_then_rm_restores path s s1 :
  TreeInv (fs s) →
  single_rooted (resolvePath s path) →
  mkdir path s = (s1, Success) →
  rm path false s1 = (s1, Returned (Error "rm: cannot remove: Is a directory (use -r)")) ∧
  ∃ s2, rm path true s1 = (s2, Returned Success) ∧
        fs s2 = fs s ∧ currentDir s2 = currentDir s.
Proof.
  intros Ht Hp Hrun.
  destruct (mkdir_spec _ _ _ _ Hrun) as [(_ & Hnew & Hsame & cs & Hcs & Hfs)|[? _]]; [|done].
  set (p := resolvePath s path) in *.
  assert (resolvePath s1 path = p) as Hres by (by apply resolvePath_cwd).
  assert (parent_of p ≠ p) as Hne by congruence.
  assert (p ≠ "/") as Hroot by (destruct (inv_root _ Ht) as [? ?]; congruence).
  assert (name_of p ∉ cs) as Hfresh.
  { intros Hin. destruct (inv_child _ Ht _ _ _ Hcs Hin) as (q & Hq & Hq_root & Hq_par & Hq_name).
    assert (q = p) as ->.
    { apply same_parent_same_name; auto. by apply (inv_rooted _ Ht). }
    rewrite Hnew in Hq. by destruct Hq. }
  assert (fs s1 !! p = Some (Dir [])) as Hdir
    by (by rewrite Hfs, lookup_insert_ne, lookup_insert_eq).
  assert (exists_ s1 p = true) as Hex by (apply exists_true; eauto).
  assert (isDir s1 p = true) as Hisdir by (apply isDir_true; eauto).
  split.
  - destruct (rm_unfold path false s1) as [fuel ->].
    unfold rm_body. by rewrite Hres, Hex, Hisdir.
  - destruct (rm_unfold path true s1) as [fuel ->].
    unfold rm_body. rewrite Hres, Hex, Hisdir, Hdir. simpl.
    rewrite Hfs, lookup_delete_ne, lookup_insert_eq by done.
    eexists. split; [done|]. split; [|done]. simpl.
    rewrite Hfs, splice_out_snoc by done.
    apply map_eq. intros k. rewrite lookup_insert, lookup_delete, !lookup_insert.
    repeat case_decide; subst; congruence.
Qed.

(** X26.  Opening the editor on a path that does not exist, under a directory
    that does, creates the empty file at once, before anything is saved;
    saving then leaves in it the text of the editor. *)
Theorem editor_creates_then_saves name content s :
  JS.startsWith (currentDir s) "/" = true →
  fs s !! resolvePath s name = None →
  isDir s (parent_of (resolvePath s name)) = true →
  readFile name (openFileEditor name s) = Content "" ∧
  readFile name (saveAndCloseEditor (resolvePath s name) content (openFileEditor name s))
    = Content content.
Proof.
  intros Hcwd Hnew Hpar. set (p := resolvePath s name) in *.
  assert (∀ s', resolvePath s' p = p) as Habs
    by (intros s'; by apply resolvePath_absolute, resolvePath_rooted).
  apply isDir_true in Hpar as Hcs. destruct Hcs as [cs Hcs].
  assert (parent_of p ≠ p) as Hne by congruence.
  assert (exists_ s p = false) as Hex by (by apply exists_false).
  assert (openFileEditor name s
          = saveFS (with_fs (push_child (parent_of p) (name_of p))
                      (with_fs <[p := File "" (clock s)]> s))) as Hopen.
  { unfold openFileEditor. fold p. unfold readFile, touch.
    rewrite !Habs, Hex, Hpar. done. }
  rewrite Hopen. clear Hopen.
  set (s1 := saveFS _).
  assert (resolvePath s1 name = p) as Hres by done.
  assert (fs s1 !! p = Some (File "" (clock s))) as Hfile.
  { simpl. unfold push_child. rewrite lookup_insert_ne by done. rewrite Hcs.
    by rewrite lookup_insert_ne, lookup_insert_eq. }
  assert (exists_ s1 p = true) as Hex1 by (apply exists_true; eauto).
  assert (isFile s1 p = true) as Hisfile by (apply isFile_true; eauto).
  split.
  - unfold readFile. by rewrite Hres, Hex1, Hfile.
  - unfold saveAndCloseEditor, writeFile. rewrite Habs, Hex1. simpl. rewrite Hisfile. simpl.
    unfold readFile. change (resolvePath _ name) with p.
    assert (fs (saveFS (with_fs (set_content p content false) s1)) !! p
            = Some (File content (clock s))) as Hsaved.
    { change (fs (saveFS (with_fs (set_content p content false) s1)))
        with (set_content p content false (fs s1)).
      unfold set_content. by rewrite Hfile, lookup_insert_eq. }
    unfold exists_. rewrite Hsaved, bool_decide_eq_true_2 by eauto.
    simpl. by rewrite or_else_empty.
Qed.

End Undo.

(** ** Concrete runs of the further properties *)

Lemma reachable_cwd_absolute_witness :
  JS.startsWith (currentDir (cd "/tmp" s0).1) "/" = true.
Proof.
  apply (reachable_cwd_absolute (H := reference_platform)).
  apply (reach_cd s0 "/tmp" _ (SuccessAt "/tmp")); [|reflexivity].
  apply (reach_new None 0). apply constructor_fallback. by left.
Defined.

Lemma full_storage_keeps_snapshot_witness :
  storage (apply (H := full_platform) (Mkdir "/tmp/x") (first_visit (H := full_platform) 0)).1
    = None.
Proof.
  exact (full_storage_keeps_snapshot (H := full_platform) (Mkdir "/tmp/x")
           (first_visit (H := full_platform) 0) (λ _, eq_refl)).
Defined.

Lemma shell_moves_only_by_cd_witness :
  currentDir (runTermCmd (H := reference_platform) "mkdir /tmp/x" s0).1 = "/home/user".
Proof.
  apply (shell_moves_only_by_cd (H := reference_platform) "mkdir /tmp/x" s0).
  vm_compute. discriminate.
Defined.

Lemma shell_reads_leave_state_witness :
  (runTermCmd (H := reference_platform) "cat /etc/motd" s0).1 = s0.
Proof.
  apply (shell_reads_leave_state (H := reference_platform) "cat /etc/motd" s0).
  compute_done.
Defined.

Lemma rm_without_operand_aborts_witness :
  runTermCmd (H := reference_platform) "rm -rf" s0 = (s0, Aborted TypeError).
Proof.
  apply (rm_without_operand_aborts (H := reference_platform) "rm -rf" s0);
    [reflexivity|vm_compute; discriminate|reflexivity].
Defined.

Lemma ls_long_root_draws_files_witness :
  runTermCmd (H := reference_platform) "ls -l /" s0 =
    (s0, InnerText
           (JS.join nl ((λ i, "-rw-r--r-- 1 user user 0 Jan 1 00:00 " +:+ i)
                          <$> ["home"; "etc"; "var"; "tmp"]))).
Proof.
  exact (ls_long_root_draws_files (H := reference_platform) "ls -l /" s0
           ["home"; "etc"; "var"; "tmp"]
           (inv_rooted _ default_fs_inv) eq_refl eq_refl eq_refl eq_refl).
Defined.

Lemma explorer_items_are_entries_witness :
  "/home" = resolvePath s0 "/home" ∧
  ∀ name target dir, (name, target, dir) ∈ [("user", "/home/user", true)] →
    is_Some (fs s0 !! target) ∧ parent_of target = "/home" ∧ name_of target = name ∧
    dir = isDir s0 target.
Proof.
  apply (explorer_items_are_entries "/home" s0 "/home" true [("user", "/home/user", true)]);
    [apply default_fs_inv|reflexivity|reflexivity].
Defined.

Lemma explorer_keeps_session_witness :
  explorerUpload (H := reference_platform) "/tmp" "a.txt" "abc" s0
    = (writeFile (H := reference_platform) "/tmp/a.txt" "abc" false s0).1.
Proof.
  exact (proj1 (proj2 (explorer_keeps_session (H := reference_platform)
                         "/tmp" "a.txt" "abc" s0 eq_refl))).
Defined.

Lemma prompt_round_trip_witness :
  promptDir (with_currentDir "/home/user/Desktop" s0) = "~/Desktop" ∧
  resolvePath (with_currentDir "/home/user/Desktop" s0) "~/Desktop" = "/home/user/Desktop".
Proof.
  split.
  - exact (proj1 (prompt_round_trip (with_currentDir "/home/user/Desktop" s0) "/Desktop" eq_refl)).
  - exact (proj2 (prompt_round_trip (with_currentDir "/home/user/Desktop" s0) "/Desktop" eq_refl)
             (or_intror eq_refl)).
Defined.

Lemma calculator_stays_at_zero_witness :
  foldl (λ display key, calcIn (λ _, None) key display) "0" ["1"; "+"; "2"; "del"; "C"] = "0".
Proof.
  apply (calculator_stays_at_zero (λ _, None) ["1"; "+"; "2"; "del"; "C"]).
  compute_done.
Defined.

Lemma rm_throws_iff_root_witness :
  (rm (H := reference_platform) ".." true (with_currentDir "/home" s0)).2 = TypeError.
Proof.
  apply (rm_throws_iff_root (H := reference_platform) ".." true (with_currentDir "/home" s0));
    [apply default_fs_inv|split; reflexivity].
Defined.

Lemma failed_rm_is_not_saved_witness :
  fs (rm (H := reference_platform) "/" true s0).1 = delete "/" default_fs ∧
  storage (rm (H := reference_platform) "/" true s0).1 = storage s0 ∧
  fs <$> constructor (H := reference_platform)
           (storage (rm (H := reference_platform) "/" true s0).1) 1 = Some default_fs.
Proof.
  apply (failed_rm_is_not_saved (H := reference_platform) reference_contract "/" s0 1);
    [apply default_fs_inv|reflexivity|reflexivity].
Defined.

Lemma rm_of_current_directory_witness :
  cd "." (rm (H := reference_platform) "." true (with_currentDir "/tmp" s0)).1
    = ((rm (H := reference_platform) "." true (with_currentDir "/tmp" s0)).1,
       Error "cd: no such file or directory").
Proof.
  refine (proj2 (proj2 (proj2 (rm_of_current_directory (H := reference_platform)
                                 "." (with_currentDir "/tmp" s0) _ false _ _ _)))).
  - apply default_fs_inv.
  - reflexivity.
  - reflexivity.
Defined.

Lemma rm_touches_only_the_subtree_witness :
  fs (rm (H := reference_platform) "/home/user" true s0).1 !! "/tmp" = Some (Dir []).
Proof.
  apply (rm_touches_only_the_subtree (H := reference_platform) "/home/user" true s0 "/tmp");
    [reflexivity|discriminate|reflexivity|discriminate].
Defined.

Lemma rm_recursive_clears_subtree_witness :
  fs (rm (H := reference_platform) "/home" true s0).1 !! "/home/user/Desktop" = None.
Proof.
  apply (rm_recursive_clears_subtree (H := reference_platform) "/home" s0
           (rm (H := reference_platform) "/home" true s0).1 "/home/user/Desktop");
    [apply default_fs_inv|vm_compute; reflexivity|right; reflexivity].
Defined.

Lemma writeFile_then_readFile_witness :
  readFile "/tmp/a" (writeFile (H := reference_platform) "/tmp/a" "def" true
                       (writeFile (H := reference_platform) "/tmp/a" "abc" false s0).1).1
    = Content "abcdef".
Proof.
  refine (proj1 (writeFile_then_readFile (H := reference_platform) "/tmp/a" "def" true
                   (writeFile (H := reference_platform) "/tmp/a" "abc" false s0).1 _ _ _));
    reflexivity.
Defined.

Lemma cp_copies_content_witness :
  ∃ content,
    readFile "/tmp/a" (writeFile (H := reference_platform) "/tmp/a" "abc" false s0).1
      = Content content ∧
    readFile "/etc/b" (cp (H := reference_platform) "/tmp/a" "/etc/b"
                         (writeFile (H := reference_platform) "/tmp/a" "abc" false s0).1).1
      = Content content ∧
    readFile "/tmp/a" (cp (H := reference_platform) "/tmp/a" "/etc/b"
                         (writeFile (H := reference_platform) "/tmp/a" "abc" false s0).1).1
      = Content content.
Proof.
  apply (cp_copies_content (H := reference_platform) "/tmp/a" "/etc/b");
    vm_compute; reflexivity.
Defined.

Lemma mv_moves_file_witness :
  ∃ content,
    readFile "/tmp/a" (writeFile (H := reference_platform) "/tmp/a" "abc" false s0).1
      = Content content ∧
    readFile "/etc/b" (mv (H := reference_platform) "/tmp/a" "/etc/b"
                         (writeFile (H := reference_platform) "/tmp/a" "abc" false s0).1).1
      = Content content ∧
    readFile "/tmp/a" (mv (H := reference_platform) "/tmp/a" "/etc/b"
                         (writeFile (H := reference_platform) "/tmp/a" "abc" false s0).1).1
      = Error "cat: No such file or directory".
Proof.
  apply (mv_moves_file (H := reference_platform) "/tmp/a" "/etc/b");
    [reflexivity|discriminate|vm_compute; reflexivity].
Defined.

Lemma mkdir_then_ls_witness :
  ls "/tmp" true (mkdir (H := reference_platform) "/tmp/x" s0).1 = Items ["x"] ∧
  cd "/tmp/x" (mkdir (H := reference_platform) "/tmp/x" s0).1
    = (with_currentDir "/tmp/x" (mkdir (H := reference_platform) "/tmp/x" s0).1,
       SuccessAt "/tmp/x").
Proof.
  pose proof (mkdir_then_ls (H := reference_platform) "/tmp/x" s0
                (mkdir (H := reference_platform) "/tmp/x" s0).1 eq_refl eq_refl)
    as (_ & (old & Hold & Hnew) & Hcd & _).
  split; [|exact Hcd]. vm_compute in Hold. injection Hold as <-. exact Hnew.
Defined.


Lemma dotdot_is_parent_witness :
  resolvePath (with_currentDir "/home/user/Desktop" s0) ".." = "/home/user".
Proof.
  apply (dotdot_is_parent (with_currentDir "/home/user/Desktop" s0) ["home"; "user"; "Desktop"]);
    [|reflexivity].
  repeat constructor; discriminate.
Defined.

Lemma mkdir_then_rm_restores_witness :
  ∃ s2, rm (H := reference_platform) "x" true (mkdir (H := reference_platform) "x" s0).1
          = (s2, Returned Success) ∧
        fs s2 = fs s0 ∧ currentDir s2 = currentDir s0.
Proof.
  refine (proj2 (mkdir_then_rm_restores (H := reference_platform) "x" s0
                   (mkdir (H := reference_platform) "x" s0).1 _ _ _)).
  - apply default_fs_inv.
  - split; reflexivity.
  - reflexivity.
Defined.

Lemma editor_creates_then_saves_witness :
  readFile "todo.txt" (openFileEditor (H := reference_platform) "todo.txt" s0) = Content "" ∧
  readFile "todo.txt"
    (saveAndCloseEditor (H := reference_platform) "/home/user/todo.txt" "milk"
       (openFileEditor (H := reference_platform) "todo.txt" s0)) = Content "milk".
Proof.
  apply (editor_creates_then_saves (H := reference_platform) "todo.txt" "milk" s0);
    reflexivity.
Defined.
